(** * Minesweeper AI: the knowledge base of [minesweeper.py]

    A shallow embedding of the classes [Minesweeper], [Sentence] and
    [MinesweeperAI] and of the helper [is_subset], followed by the
    properties of the inference engine.

    Python sets of cells are [gset]s of integer pairs, Python integers are
    [Z], the knowledge list is a [list Sentence].  The two unbounded loops
    of [add_knowledge] (the [while knowledge_changed] loop and the nested
    [for] loops that iterate over a list while appending to it) and the
    [while True] loop of [make_random_move] take a fuel argument; running
    out of it is the outcome [OutOfFuel]. *)

From stdpp Require Import base gmap sets fin_sets list.
From Stdlib Require Import ZArith Lia.

Open Scope Z_scope.

#[local] Set Warnings "-clear-no-such-hyp".

(** ** Outcomes of a call *)

(** The exceptions the embedded code can raise: [set.remove] on a missing
    element and [random.randint] on an empty range. *)
Inductive exn := KeyError | ValueError.

Inductive result (A : Type) : Type :=
  | Ret (a : A)
  | Raise (e : exn)
  | OutOfFuel.
Arguments Ret {A} a.
Arguments Raise {A} e.
Arguments OutOfFuel {A}.

Global Instance exn_eq_dec : EqDecision exn.
Proof. solve_decision. Defined.

Global Instance result_eq_dec {A} `{EqDecision A} : EqDecision (result A).
Proof. solve_decision. Defined.

(** Sequencing: an exception or the exhaustion of the fuel ends the run. *)
Global Instance result_bind : MBind result := λ A B k m,
  match m with
  | Ret a => k a
  | Raise e => Raise e
  | OutOfFuel => OutOfFuel
  end.

Definition returns {A} (m : result A) : Prop := ∃ a, m = Ret a.

(** ** Cells and ranges *)

(** A cell is a pair (row, column); the alias is a notation so that the
    instances for pairs of integers apply as they are. *)
Abbreviation Cell := (Z * Z)%type.

(** Python's [range(lo, hi)]. *)
Definition range (lo hi : Z) : list Z :=
  (λ k : nat, lo + Z.of_nat k) <$> seq 0 (Z.to_nat (hi - lo)).

(** The cells visited by [for i in range(r-1, r+2): for j in range(c-1, c+2)],
    in the order of the loops. *)
Definition block (cell : Cell) : list Cell :=
  i ← range (cell.1 - 1) (cell.1 + 2);
  j ← range (cell.2 - 1) (cell.2 + 2);
  [(i, j)].

Definition in_bounds (height width : Z) (c : Cell) : bool :=
  (0 <=? c.1) && (c.1 <? height) && (0 <=? c.2) && (c.2 <? width).

(** Chebyshev distance between two cells. *)
Definition chebyshev (a b : Cell) : Z :=
  Z.max (Z.abs (a.1 - b.1)) (Z.abs (a.2 - b.2)).

(** ** class Minesweeper *)

(** The board stores [board[i][j] = True] exactly at the cells of [mines];
    the embedding keeps the set. *)
Record Minesweeper := mkBoard {
  b_height : Z;
  b_width : Z;
  b_mines : gset Cell
}.

Module Minesweeper.

Definition is_mine (b : Minesweeper) (cell : Cell) : bool :=
  bool_decide (cell ∈ b_mines b).

Definition nearby_mines (b : Minesweeper) (cell : Cell) : Z :=
  foldl (λ count n,
           if decide (n = cell) then count
           else if in_bounds (b_height b) (b_width b) n
                then if is_mine b n then count + 1 else count
                else count)
        0 (block cell).

End Minesweeper.

(** ** class Sentence *)

Record Sentence := mkSentence {
  cells : gset Cell;
  count : Z
}.

(** [Sentence.__eq__] compares cell sets and counts: it is Leibniz equality
    of the record. *)
Global Instance Sentence_eq_dec : EqDecision Sentence.
Proof. solve_decision. Defined.

Module Sentence.

Definition known_mines (s : Sentence) : gset Cell :=
  let mine_count := count s in
  if (Z.of_nat (size (cells s)) =? mine_count) && negb (mine_count =? 0)
  then cells s
  else ∅.

Definition known_safes (s : Sentence) : gset Cell :=
  if count s =? 0 then cells s else ∅.

Definition mark_mine (s : Sentence) (cell : Cell) : Sentence :=
  if decide (cell ∈ cells s)
  then mkSentence (cells s ∖ {[cell]}) (count s - 1)
  else s.

Definition mark_safe (s : Sentence) (cell : Cell) : Sentence :=
  if decide (cell ∈ cells s)
  then mkSentence (cells s ∖ {[cell]}) (count s)
  else s.

End Sentence.

(** ** is_subset *)

Definition is_subset (set1 set2 : Sentence) : bool :=
  let '(big_set, small_set) :=
    if (size (cells set2) <? size (cells set1))%nat
    then (cells set1, cells set2)
    else (cells set2, cells set1) in
  forallb (λ cell, bool_decide (cell ∈ big_set)) (elements small_set).

(** ** class MinesweeperAI *)

Record MinesweeperAI := mkAI {
  height : Z;
  width : Z;
  moves_made : gset Cell;
  mines : gset Cell;
  safes : gset Cell;
  knowledge : list Sentence
}.

Global Instance MinesweeperAI_eq_dec : EqDecision MinesweeperAI.
Proof. solve_decision. Defined.

Module MinesweeperAI.

Definition init (h w : Z) : MinesweeperAI := mkAI h w ∅ ∅ ∅ [].

Definition mark_mine (ai : MinesweeperAI) (cell : Cell) : MinesweeperAI :=
  mkAI (height ai) (width ai) (moves_made ai)
       ({[cell]} ∪ mines ai) (safes ai)
       ((λ s, Sentence.mark_mine s cell) <$> knowledge ai).

Definition mark_safe (ai : MinesweeperAI) (cell : Cell) : MinesweeperAI :=
  mkAI (height ai) (width ai) (moves_made ai)
       (mines ai) ({[cell]} ∪ safes ai)
       ((λ s, Sentence.mark_safe s cell) <$> knowledge ai).

(** *** Lines 221-246: record the move and build the new sentence *)

(** One iteration of the body of the neighbour loops; [acc] is the pair
    of the local variables [cells] and [count]. *)
Definition scan_body (ai : MinesweeperAI) (cell : Cell)
    (acc : gset Cell * Z) (neighbor : Cell) : gset Cell * Z :=
  if decide (cell = neighbor) then acc
  else if in_bounds (height ai) (width ai) neighbor then
    if negb (bool_decide (neighbor ∈ mines ai) || bool_decide (neighbor ∈ safes ai))
    then ({[neighbor]} ∪ acc.1, acc.2)
    else if bool_decide (neighbor ∈ mines ai)
         then (acc.1, acc.2 - 1)
         else acc
  else acc.

Definition scan (ai : MinesweeperAI) (cell : Cell) (count : Z) : gset Cell * Z :=
  foldl (scan_body ai cell) (∅, count) (block cell).

Definition observe (ai : MinesweeperAI) (cell : Cell) (count : Z) : MinesweeperAI :=
  let ai1 := mkAI (height ai) (width ai) ({[cell]} ∪ moves_made ai)
                  (mines ai) (safes ai) (knowledge ai) in
  let ai2 := mark_safe ai1 cell in
  let '(cs, k) := scan ai2 cell count in
  mkAI (height ai2) (width ai2) (moves_made ai2) (mines ai2) (safes ai2)
       (knowledge ai2 ++ [mkSentence cs k]).

(** *** Lines 263-279: mark what the sentences give away *)

Definition all_known_safes (kb : list Sentence) : gset Cell :=
  foldl (λ acc s, acc ∪ Sentence.known_safes s) ∅ kb.

Definition all_known_mines (kb : list Sentence) : gset Cell :=
  foldl (λ acc s, acc ∪ Sentence.known_mines s) ∅ kb.

(** Returns the state and the value of [knowledge_changed]. *)
Definition mark_known (ai : MinesweeperAI) : MinesweeperAI * bool :=
  let new_safes := all_known_safes (knowledge ai) in
  let new_mines := all_known_mines (knowledge ai) in
  let '(ai1, ch1) :=
    if (0 <? size new_safes)%nat
    then (foldl mark_safe ai (elements new_safes), true)
    else (ai, false) in
  if (0 <? size new_mines)%nat
  then (foldl mark_mine ai1 (elements new_mines), true)
  else (ai1, ch1).

(** *** Lines 283-290: drop the sentences without cells *)

Fixpoint prune (kb : list Sentence) : list Sentence :=
  match kb with
  | [] => []
  | sentence :: rest =>
      if (size (cells sentence) =? 0)%nat then prune rest
      else sentence :: prune rest
  end.

(** *** Lines 293-319: subtract nested sentences *)

Definition set_remove (s : gset Cell) (cell : Cell) : result (gset Cell) :=
  if decide (cell ∈ s) then Ret (s ∖ {[cell]}) else Raise KeyError.

(** [for cell_small in small.cells.copy(): new_cells.remove(cell_small)] *)
Fixpoint remove_each (new_cells : gset Cell) (todo : list Cell) : result (gset Cell) :=
  match todo with
  | [] => Ret new_cells
  | cell_small :: rest =>
      new_cells' ← set_remove new_cells cell_small;
      remove_each new_cells' rest
  end.

(** The body of the [if is_subset(sentence1, sentence2)] branch up to the
    construction of [new_sentence]. *)
Definition subtract (sentence1 sentence2 : Sentence) : result Sentence :=
  let '(big, small) :=
    if (size (cells sentence2) <? size (cells sentence1))%nat
    then (sentence1, sentence2)
    else (sentence2, sentence1) in
  let mine_count := count big - count small in
  new_cells ← remove_each (cells big) (elements (cells small));
  Ret (mkSentence new_cells mine_count).

(** The body of the inner [for] loop for the pair at hand. *)
Definition pair_body (kb : list Sentence) (changed : bool)
    (sentence1 sentence2 : Sentence) : result (list Sentence * bool) :=
  if decide (cells sentence2 = cells sentence1) then Ret (kb, changed)
  else if is_subset sentence1 sentence2 then
    new_sentence ← subtract sentence1 sentence2;
    if decide (new_sentence ∈ kb) then Ret (kb, changed)
    else Ret (kb ++ [new_sentence], true)
  else Ret (kb, changed).

(** The nested [for] loops.  Both iterate over [self.knowledge] by index
    and see the sentences appended meanwhile: [i] and [j] are the
    positions of the two list iterators. *)
Fixpoint subset_loop (fuel : nat) (i j : nat) (kb : list Sentence)
    (changed : bool) : result (list Sentence * bool) :=
  match fuel with
  | O => OutOfFuel
  | S fuel' =>
      match kb !! i with
      | None => Ret (kb, changed)
      | Some sentence1 =>
          match kb !! j with
          | None => subset_loop fuel' (S i) 0 kb changed
          | Some sentence2 =>
              '(kb', changed') ← pair_body kb changed sentence1 sentence2;
              subset_loop fuel' i (S j) kb' changed'
          end
      end
  end.

(** *** One pass of the [while knowledge_changed] loop *)

Definition pass (fuel : nat) (ai : MinesweeperAI) : result (MinesweeperAI * bool) :=
  let '(ai1, changed) := mark_known ai in
  let kb := prune (knowledge ai1) in
  '(kb', changed') ← subset_loop fuel 0 0 kb changed;
  Ret (mkAI (height ai1) (width ai1) (moves_made ai1) (mines ai1) (safes ai1) kb',
       changed').

Fixpoint infer (fuel : nat) (ai : MinesweeperAI) : result MinesweeperAI :=
  match fuel with
  | O => OutOfFuel
  | S fuel' =>
      '(ai', knowledge_changed) ← pass fuel' ai;
      if knowledge_changed : bool then infer fuel' ai' else Ret ai'
  end.

Definition add_knowledge (fuel : nat) (ai : MinesweeperAI) (cell : Cell)
    (count : Z) : result MinesweeperAI :=
  infer fuel (observe ai cell count).

(** *** make_safe_move *)

(** [for cell in self.safes]: the order in which Python goes through a set
    is not fixed by its elements (it depends on the hashes and on the history
    of the set), so the order is an argument, [order].  The first cell of it
    that has not been played is returned, [None] when there is none. *)
Fixpoint make_safe_move (order : list Cell) (ai : MinesweeperAI) : option Cell :=
  match order with
  | [] => None
  | cell :: rest =>
      if bool_decide (cell ∉ moves_made ai) then Some cell
      else make_safe_move rest ai
  end.

(** *** make_random_move *)

(** [random.randint(lo, hi)] driven by a raw random number [r]: any value
    of the closed range can come out, an empty range raises. *)
Definition randint (lo hi : Z) (r : nat) : result Z :=
  if hi <? lo then Raise ValueError
  else Ret (lo + Z.of_nat r mod (hi - lo + 1)).

(** [rng] is the stream of raw random numbers, [n] the number of them
    consumed so far. *)
Fixpoint make_random_move (fuel : nat) (rng : nat → nat) (n : nat)
    (ai : MinesweeperAI) : result Cell :=
  match fuel with
  | O => OutOfFuel
  | S fuel' =>
      rand_i ← randint 0 (height ai - 1) (rng n);
      rand_j ← randint 0 (width ai - 1) (rng (S n));
      let cords := (rand_i, rand_j) in
      if negb (bool_decide (cords ∈ mines ai) || bool_decide (cords ∈ moves_made ai))
      then Ret cords
      else make_random_move fuel' rng (S (S n)) ai
  end.

End MinesweeperAI.

Import MinesweeperAI.

(** ** Notions used in the statements *)

(** The count of a sentence is between 0 and its number of cells. *)
Definition count_in_range (s : Sentence) : Prop :=
  0 ≤ count s ≤ Z.of_nat (size (cells s)).

(** The neighbours of [cell] on a [h] by [w] board: the in-bounds cells at
    Chebyshev distance 1. *)
Definition neighbour (h w : Z) (cell n : Cell) : Prop :=
  chebyshev n cell = 1 ∧ in_bounds h w n = true.

Global Instance neighbour_dec h w cell n : Decision (neighbour h w cell n).
Proof. unfold neighbour. apply _. Defined.

(** The subtraction of a sentence from one on a larger cell set, as the
    specification words it: [cells = bigger.cells − smaller.cells] and
    [count = bigger.count − smaller.count]. *)
Definition difference (big small : Sentence) : Sentence :=
  mkSentence (cells big ∖ cells small) (count big - count small).

(** The sentence a pair gives rise to: the difference when one cell set is
    strictly inside the other, nothing otherwise. *)
Definition derived (s1 s2 : Sentence) : option Sentence :=
  if decide (cells s1 ⊂ cells s2) then Some (difference s2 s1)
  else if decide (cells s2 ⊂ cells s1) then Some (difference s1 s2)
  else None.

(** Appending a sentence unless an equal one is present. *)
Definition append_new (kb : list Sentence) (changed : bool)
    (d : option Sentence) : list Sentence * bool :=
  match d with
  | Some d => if decide (d ∈ kb) then (kb, changed) else (kb ++ [d], true)
  | None => (kb, changed)
  end.

(** A knowledge list that contains the sentence derived from each of its
    pairs. *)
Definition closed (kb : list Sentence) : Prop :=
  ∀ s1 s2 d, s1 ∈ kb → s2 ∈ kb → derived s1 s2 = Some d → d ∈ kb.

(** The sentence tells the truth about the mine set [B]: its count is the
    number of its cells that are mines. *)
Definition holds (B : gset Cell) (s : Sentence) : Prop :=
  count s = Z.of_nat (size (cells s ∩ B)).

(** The state of the AI agrees with the board: same dimensions, no cell
    known safe is a mine, every cell known as a mine is one, and every
    sentence holds. *)
Definition consistent (b : Minesweeper) (ai : MinesweeperAI) : Prop :=
  height ai = b_height b ∧ width ai = b_width b ∧
  safes ai ## b_mines b ∧ mines ai ⊆ b_mines b ∧
  Forall (holds (b_mines b)) (knowledge ai).

(** An observation as the docstring of [add_knowledge] describes it: the
    board tells, for a safe cell, how many neighbouring cells are mines. *)
Definition truthful (b : Minesweeper) (cell : Cell) (k : Z) : Prop :=
  Minesweeper.is_mine b cell = false ∧ k = Minesweeper.nearby_mines b cell.

(** All the cells that occur in the sentences. *)
Definition mentioned (kb : list Sentence) : gset Cell := ⋃ (cells <$> kb).

(** All the subsets of the cells of a list. *)
Fixpoint subsets (l : list Cell) : list (gset Cell) :=
  match l with
  | [] => [∅]
  | c :: l => subsets l ++ (({[c]} ∪.) <$> subsets l)
  end.

(** The number of non-empty sets of cells of [U] (counted along [subsets])
    that are the cells of no sentence yet. *)
Definition missing (U : gset Cell) (kb : list Sentence) : nat :=
  length (filter (λ X, X ≠ ∅ ∧ X ∉ cells <$> kb) (subsets (elements U))).

(** Feeding a list of observations to the AI, one call of [add_knowledge]
    each. *)
Definition replay (fuel : nat) (ai : MinesweeperAI) (obs : list (Cell * Z))
    : result MinesweeperAI :=
  foldl (λ r o, ai ← r; add_knowledge fuel ai o.1 o.2) (Ret ai) obs.

(** ** Boards and states of the examples *)

(** The 1 by 3 board of the specification's scenario: one mine, at (0, 2). *)
Definition board_1x3 : Minesweeper := mkBoard 1 3 {[(0, 2)]}.

(** A 2 by 3 AI that was told about the cell (0, 1) twice, with the counts 1
    and 2. *)
Definition told_twice : MinesweeperAI :=
  mkAI 2 3 {[(0, 1)]} ∅ {[(0, 1)]}
       [mkSentence {[(0, 0); (0, 2); (1, 0); (1, 1); (1, 2)]} 1;
        mkSentence {[(0, 0); (0, 2); (1, 0); (1, 1); (1, 2)]} 2].

(** A 1 by 1 AI whose only cell has been played. *)
Definition played_out : MinesweeperAI :=
  mkAI 1 1 {[(0, 0)]} ∅ {[(0, 0)]} [].

(** ** More of the code and of the notions about it *)

(** Lines 283-290 as they are written: [index] runs over the list while
    [pop(index)] takes out the sentences without cells. *)
Fixpoint prune_while (fuel : nat) (index : nat) (kb : list Sentence)
    : result (list Sentence) :=
  match fuel with
  | O => OutOfFuel
  | S fuel' =>
      match kb !! index with
      | None => Ret kb
      | Some sentence =>
          if (size (cells sentence) =? 0)%nat
          then prune_while fuel' index (delete index kb)
          else prune_while fuel' (S index) kb
      end
  end.

(** No sentence mentions a cell that is known to be safe or to be a mine. *)
Definition tidy (ai : MinesweeperAI) : Prop :=
  mentioned (knowledge ai) ## safes ai ∪ mines ai.

(** The cells the AI reasons about are cells of its board: the known mines,
    the known safes that were not played, and the cells of the sentences. *)
Definition on_board (ai : MinesweeperAI) : Prop :=
  ∀ c, c ∈ mines ai ∪ (safes ai ∖ moves_made ai) ∪ mentioned (knowledge ai) →
       in_bounds (height ai) (width ai) c = true.

(** The knowledge base has nothing left to give: no sentence is without
    cells, none says that all or none of its cells are mines, and the
    difference of every nested pair is there. *)
Definition saturated (kb : list Sentence) : Prop :=
  (∀ s, s ∈ kb → cells s ≠ ∅ ∧ count s ≠ 0 ∧ count s ≠ Z.of_nat (size (cells s))) ∧
  closed kb.

(** The cell drawn in round [k] of [make_random_move], when the board has
    positive dimensions. *)
Definition draw (ai : MinesweeperAI) (rng : nat → nat) (k : nat) : Cell :=
  (Z.of_nat (rng (2 * k)%nat) mod height ai,
   Z.of_nat (rng (S (2 * k))) mod width ai).

(** [order] is an order in which a loop can go through the set [s]: each
    element once. *)
Definition iterates (order : list Cell) (s : gset Cell) : Prop :=
  NoDup order ∧ list_to_set order = s.

Definition eligible (ai : MinesweeperAI) (c : Cell) : Prop :=
  (c ∉ mines ai) ∧ c ∉ moves_made ai.

Global Instance eligible_dec ai c : Decision (eligible ai c).
Proof. unfold eligible. apply _. Defined.

(** ** class Minesweeper with its grid *)

(** The object as the class keeps it: the list of rows [self.board] beside
    the set [self.mines], and the set [self.mines_found]. *)
Record Board := mkGrid {
  bd_height : Z;
  bd_width : Z;
  bd_mines : gset Cell;
  bd_board : list (list bool);
  bd_mines_found : gset Cell
}.

(** The position a Python list of length [len] reads for the index [i]: a
    negative index counts from the end; [None] stands for [IndexError]. *)
Definition py_index (len : nat) (i : Z) : option nat :=
  if (0 <=? i) && (i <? Z.of_nat len) then Some (Z.to_nat i)
  else if (- Z.of_nat len <=? i) && (i <? 0) then Some (Z.to_nat (Z.of_nat len + i))
  else None.

(** [board[i][j]] *)
Definition board_get (board : list (list bool)) (i j : Z) : option bool :=
  r ← py_index (length board) i;
  row ← board !! r;
  c ← py_index (length row) j;
  row !! c.

(** [board[i][j] = v] *)
Definition board_set (board : list (list bool)) (i j : Z) (v : bool)
    : option (list (list bool)) :=
  r ← py_index (length board) i;
  row ← board !! r;
  c ← py_index (length row) j;
  Some (<[r := <[c := v]> row]> board).

(** [random.randrange(n)] driven by a raw random number: any value below
    [n] can come out, an empty range raises. *)
Definition randrange (n : Z) (r : nat) : result Z :=
  if n <=? 0 then Raise ValueError else Ret (Z.of_nat r mod n).

Module Board.

(** The loop [while len(self.mines) != mines] of [__init__].  The answer
    [Ret None] stands for an [IndexError] of a board access. *)
Fixpoint place (fuel : nat) (rng : nat → nat) (n : nat) (height width mines : Z)
    (placed : gset Cell) (board : list (list bool))
    : result (option (gset Cell * list (list bool))) :=
  match fuel with
  | O => OutOfFuel
  | S fuel' =>
      if Z.of_nat (size placed) =? mines then Ret (Some (placed, board))
      else
        i ← randrange height (rng n);
        j ← randrange width (rng (S n));
        match board_get board i j with
        | None => Ret None
        | Some true => place fuel' rng (S (S n)) height width mines placed board
        | Some false =>
            match board_set board i j true with
            | None => Ret None
            | Some board' =>
                place fuel' rng (S (S n)) height width mines
                      ({[(i, j)]} ∪ placed) board'
            end
        end
  end.

(** [__init__]: [range] of a negative number is empty. *)
Definition new (fuel : nat) (rng : nat → nat) (height width mines : Z)
    : result (option Board) :=
  let board := replicate (Z.to_nat height) (replicate (Z.to_nat width) false) in
  match place fuel rng 0 height width mines ∅ board with
  | Ret (Some (placed, board')) => Ret (Some (mkGrid height width placed board' ∅))
  | Ret None => Ret None
  | Raise e => Raise e
  | OutOfFuel => OutOfFuel
  end.

Definition is_mine (g : Board) (cell : Cell) : option bool :=
  board_get (bd_board g) cell.1 cell.2.

Definition nearby_mines (g : Board) (cell : Cell) : option Z :=
  foldl (λ acc n,
           count ← acc;
           if decide (n = cell) then Some count
           else if in_bounds (bd_height g) (bd_width g) n
                then v ← board_get (bd_board g) n.1 n.2;
                     Some (if v : bool then count + 1 else count)
                else Some count)
        (Some 0) (block cell).

Definition won (g : Board) : bool :=
  bool_decide (bd_mines_found g = bd_mines g).

End Board.

(** The board as the claims see it: its dimensions and its set of mines. *)
Definition board_of (g : Board) : Minesweeper :=
  mkBoard (bd_height g) (bd_width g) (bd_mines g).

(** The grid and the set of mines tell the same: the grid has [height] rows
    of [width] cells, a cell of the grid is [True] exactly when it is in the
    set, and the set has board cells only. *)
Definition grid_matches (height width : Z) (placed : gset Cell)
    (board : list (list bool)) : Prop :=
  length board = Z.to_nat height ∧
  Forall (λ row, length row = Z.to_nat width) board ∧
  (∀ c, c ∈ placed → in_bounds height width c = true) ∧
  ∀ (i j : nat) row v,
    board !! i = Some row → row !! j = Some v →
    v = bool_decide ((Z.of_nat i, Z.of_nat j) ∈ placed).

Definition well_formed (g : Board) : Prop :=
  grid_matches (bd_height g) (bd_width g) (bd_mines g) (bd_board g).

(** The cells of a [height] by [width] board, row by row. *)
Definition board_cells (height width : Z) : list Cell :=
  i ← range 0 height; j ← range 0 width; [(i, j)].

(** * Properties *)

(** ** Sentences *)

Section sentence_facts.
Implicit Types (s : Sentence) (c cell : Cell) (X Y : gset Cell).

Lemma forallb_elements_subseteq X Y :
  forallb (λ c, bool_decide (c ∈ Y)) (elements X) = true ↔ X ⊆ Y.
Proof.
  rewrite forallb_forall. split.
  - intros H c Hc. apply elem_of_elements, list_elem_of_In, H in Hc.
    by apply bool_decide_eq_true in Hc.
  - intros H c Hc%list_elem_of_In%elem_of_elements.
    apply bool_decide_eq_true. auto.
Qed.

Lemma is_subset_true s1 s2 :
  is_subset s1 s2 = true ↔
  if decide (size (cells s2) < size (cells s1))%nat
  then cells s2 ⊆ cells s1 else cells s1 ⊆ cells s2.
Proof.
  unfold is_subset. case_decide as Hlt.
  - apply Nat.ltb_lt in Hlt. rewrite Hlt. apply forallb_elements_subseteq.
  - apply Nat.ltb_nlt in Hlt. rewrite Hlt. apply forallb_elements_subseteq.
Qed.

Lemma subseteq_size_ge_eq X Y : X ⊆ Y → (size Y ≤ size X)%nat → X = Y.
Proof. intros. by apply set_subseteq_size_eq. Qed.

(** With unequal cell sets [is_subset] holds exactly for strictly nested
    ones, whichever way round. *)
Lemma is_subset_nested s1 s2 :
  cells s2 ≠ cells s1 →
  is_subset s1 s2 = true ↔ cells s1 ⊂ cells s2 ∨ cells s2 ⊂ cells s1.
Proof.
  intros Hne. rewrite is_subset_true. case_decide as Hlt; split.
  - intros H. right. split; [done|]. intros H'.
    apply subseteq_size in H'. lia.
  - intros [[H _]|[H _]]; [|done]. apply subseteq_size in H. lia.
  - intros H. left. split; [done|]. intros H'.
    destruct Hne. by apply (anti_symm (⊆)).
  - intros [[H _]|[H Hn]]; [done|].
    destruct Hne. apply subseteq_size_ge_eq; [done|lia].
Qed.

Lemma is_subset_comm s1 s2 : is_subset s1 s2 = is_subset s2 s1.
Proof.
  apply eq_true_iff_eq. rewrite !is_subset_true.
  repeat case_decide; try lia; try done.
  assert (size (cells s1) = size (cells s2)) as Heq by lia.
  split; intros Hsub.
  - assert (cells s1 = cells s2) as -> by (apply subseteq_size_ge_eq; [done|lia]).
    done.
  - assert (cells s2 = cells s1) as -> by (apply subseteq_size_ge_eq; [done|lia]).
    done.
Qed.

End sentence_facts.

(** C10: [is_subset] does not depend on the order of its arguments: it holds
    exactly when the cell set that is not the larger one is contained in the
    other, so a positive answer does not say that the first argument's cells
    lie in the second's. *)
Theorem is_subset_symmetric :
  (∀ s1 s2, is_subset s1 s2 = is_subset s2 s1) ∧
  (∀ s1 s2, is_subset s1 s2 = true ↔
     if decide (size (cells s1) ≤ size (cells s2))%nat
     then cells s1 ⊆ cells s2 else cells s2 ⊆ cells s1) ∧
  (∃ s1 s2, is_subset s1 s2 = true ∧ ¬ cells s1 ⊆ cells s2).
Proof.
  split; [exact is_subset_comm|]. split.
  - intros s1 s2. rewrite is_subset_true.
    repeat case_decide; try lia; done.
  - exists (mkSentence {[(0, 0); (0, 1)]} 1), (mkSentence {[(0, 0)]} 1).
    split; [by vm_compute|]. simpl. intros H.
    specialize (H (0, 1)). set_solver.
Qed.

(** C4: [known_mines] gives back the whole cell set when the count equals
    the number of cells and is positive, and the empty set in every other
    case (the sentence without cells and with count 0 among them); its answer
    is non-empty exactly in the first case. *)
Theorem known_mines_spec (s : Sentence) :
  let full := count s = Z.of_nat (size (cells s)) ∧ 0 < count s in
  (full → Sentence.known_mines s = cells s) ∧
  (¬ full → Sentence.known_mines s = ∅) ∧
  (count s = 0 → Sentence.known_mines s = ∅) ∧
  (Sentence.known_mines s ≠ ∅ ↔ full).
Proof.
  intros full. unfold Sentence.known_mines. subst full. simpl.
  destruct (Z.eqb_spec (Z.of_nat (size (cells s))) (count s)) as [He|He];
    destruct (Z.eqb_spec (count s) 0) as [H0|H0]; simpl.
  - split_and!; [intros [_ ?]; lia|done|done|]. split; [done|]. intros [_ ?]; lia.
  - split_and!; [done| |done|].
    + intros Hn. destruct Hn. lia.
    + split; [lia|]. intros _ Hc.
      assert (size (cells s) = 0%nat) by (by rewrite Hc). lia.
  - split_and!; [intros [? ?]; lia|done|done|]. split; [done|]. intros [? ?]; lia.
  - split_and!; [intros [? ?]; lia|done|done|]. split; [done|]. intros [? ?]; lia.
Qed.

(** C5: [known_safes] gives back the whole cell set when the count is 0 and
    the empty set for every other count, the positive ones in particular; its
    answer is non-empty exactly for a sentence with cells and count 0. *)
Theorem known_safes_spec (s : Sentence) :
  (count s = 0 → Sentence.known_safes s = cells s) ∧
  (0 < count s → Sentence.known_safes s = ∅) ∧
  (count s ≠ 0 → Sentence.known_safes s = ∅) ∧
  (Sentence.known_safes s ≠ ∅ ↔ count s = 0 ∧ cells s ≠ ∅).
Proof.
  unfold Sentence.known_safes.
  destruct (Z.eqb_spec (count s) 0) as [H0|H0].
  - split_and!; [done|lia|done|]. split; [done|]. by intros [_ ?].
  - split_and!; [done|done|done|]. split; [done|]. intros [? ?]; lia.
Qed.

(** ** Counts under [mark_mine] and [mark_safe] *)

(** A count within range can leave it: marking a cell of a sentence with
    count 0 as a mine gives -1, and marking the only cell of a sentence with
    count 1 as safe leaves count 1 on no cells. *)
Lemma count_range_not_preserved :
  (count_in_range (mkSentence {[(0, 0)]} 0) ∧
   ¬ count_in_range (Sentence.mark_mine (mkSentence {[(0, 0)]} 0) (0, 0))) ∧
  (count_in_range (mkSentence {[(0, 0)]} 1) ∧
   ¬ count_in_range (Sentence.mark_safe (mkSentence {[(0, 0)]} 1) (0, 0))).
Proof.
  unfold count_in_range. vm_compute. intuition congruence.
Qed.

Section mark_facts.
Implicit Types (s : Sentence) (cell : Cell).

Lemma size_remove_elem (X : gset Cell) cell :
  cell ∈ X → size X = S (size (X ∖ {[cell]})).
Proof.
  intros Hin. rewrite size_difference by set_solver.
  rewrite size_singleton.
  assert (0 < size X)%nat; [|lia].
  apply Nat.neq_0_lt_0. intros Hz%size_empty_iff. set_solver.
Qed.

Lemma mark_mine_in s cell :
  cell ∈ cells s →
  Sentence.mark_mine s cell = mkSentence (cells s ∖ {[cell]}) (count s - 1).
Proof. intros. unfold Sentence.mark_mine. by rewrite decide_True. Qed.

Lemma mark_mine_notin s cell : cell ∉ cells s → Sentence.mark_mine s cell = s.
Proof. intros. unfold Sentence.mark_mine. by rewrite decide_False. Qed.

Lemma mark_safe_in s cell :
  cell ∈ cells s →
  Sentence.mark_safe s cell = mkSentence (cells s ∖ {[cell]}) (count s).
Proof. intros. unfold Sentence.mark_safe. by rewrite decide_True. Qed.

Lemma mark_safe_notin s cell : cell ∉ cells s → Sentence.mark_safe s cell = s.
Proof. intros. unfold Sentence.mark_safe. by rewrite decide_False. Qed.

Lemma cells_mark_mine s cell :
  cells (Sentence.mark_mine s cell) = cells s ∖ {[cell]}.
Proof.
  destruct (decide (cell ∈ cells s)).
  - by rewrite mark_mine_in.
  - rewrite mark_mine_notin by done. set_solver.
Qed.

Lemma cells_mark_safe s cell :
  cells (Sentence.mark_safe s cell) = cells s ∖ {[cell]}.
Proof.
  destruct (decide (cell ∈ cells s)).
  - by rewrite mark_safe_in.
  - rewrite mark_safe_notin by done. set_solver.
Qed.

Lemma count_mark_safe s cell : count (Sentence.mark_safe s cell) = count s.
Proof. unfold Sentence.mark_safe. by case_decide. Qed.

End mark_facts.

(** C6 (as amended): for a sentence whose count is within [0, |cells|],
    [mark_mine] keeps the count at most the number of cells, and within
    range when the cell is not in the sentence or the count is positive;
    [mark_safe] keeps the count non-negative, and within range when the cell
    is not in the sentence or the count is below the number of cells. *)
Theorem mark_count_range (s : Sentence) (cell : Cell) :
  count_in_range s →
  (count (Sentence.mark_mine s cell)
     ≤ Z.of_nat (size (cells (Sentence.mark_mine s cell))) ∧
   (cell ∉ cells s ∨ 0 < count s → count_in_range (Sentence.mark_mine s cell))) ∧
  (0 ≤ count (Sentence.mark_safe s cell) ∧
   (cell ∉ cells s ∨ count s < Z.of_nat (size (cells s)) →
    count_in_range (Sentence.mark_safe s cell))).
Proof.
  unfold count_in_range. intros [Hlo Hhi].
  destruct (decide (cell ∈ cells s)) as [Hin|Hin].
  - rewrite mark_mine_in, mark_safe_in by done. simpl.
    pose proof (size_remove_elem _ _ Hin) as Hsz.
    split_and!; try lia; intros [?|?]; try done; lia.
  - rewrite mark_mine_notin, mark_safe_notin by done.
    split_and!; try lia; intros _; lia.
Qed.

Lemma mark_count_range_witness :
  count_in_range (mkSentence {[(0, 0); (0, 1)]} 1) ∧
  count_in_range (Sentence.mark_mine (mkSentence {[(0, 0); (0, 1)]} 1) (0, 0)) ∧
  count_in_range (Sentence.mark_safe (mkSentence {[(0, 0); (0, 1)]} 1) (0, 0)).
Proof.
  assert (count_in_range (mkSentence {[(0, 0); (0, 1)]} 1)) as Hr.
  { unfold count_in_range. vm_compute. intuition congruence. }
  destruct (mark_count_range (mkSentence {[(0, 0); (0, 1)]} 1) (0, 0) Hr)
    as [[_ Hm] [_ Hs]].
  split_and!; [done| |].
  - apply Hm. right. simpl. lia.
  - apply Hs. right. vm_compute. done.
Defined.

(** ** The sentence built from an observation *)

Section neighbours.
Implicit Types (cell n : Cell) (ai : MinesweeperAI).

Lemma block_unfold r c :
  block (r, c) =
  [(r - 1, c - 1); (r - 1, c); (r - 1, c + 1);
   (r, c - 1); (r, c); (r, c + 1);
   (r + 1, c - 1); (r + 1, c); (r + 1, c + 1)].
Proof.
  unfold block, range. simpl fst. simpl snd.
  replace (r + 2 - (r - 1)) with 3 by lia.
  replace (c + 2 - (c - 1)) with 3 by lia.
  change (Z.to_nat 3) with 3%nat. cbn.
  repeat (f_equal; try lia).
Qed.

Lemma elem_of_block cell n :
  n ∈ block cell ↔ chebyshev n cell ≤ 1.
Proof.
  destruct cell as [r c], n as [i j]. rewrite block_unfold.
  unfold chebyshev. simpl. rewrite !elem_of_cons, elem_of_nil.
  split.
  - intros H. repeat (destruct H as [H|H]; [inversion H; subst; lia|]). done.
  - intros H.
    assert (i = r - 1 ∨ i = r ∨ i = r + 1) as Hi by lia.
    assert (j = c - 1 ∨ j = c ∨ j = c + 1) as Hj by lia.
    destruct Hi as [-> | [-> | ->]], Hj as [-> | [-> | ->]]; tauto.
Qed.

Lemma NoDup_block cell : NoDup (block cell).
Proof.
  destruct cell as [r c]. rewrite block_unfold.
  repeat (apply NoDup_cons; split;
          [rewrite ?elem_of_cons, elem_of_nil;
           intros H; repeat (destruct H as [H|H]; [inversion H; lia|]); done|]).
  apply NoDup_nil_2.
Qed.

Lemma chebyshev_zero cell n : chebyshev n cell = 0 ↔ n = cell.
Proof.
  destruct cell as [r c], n as [i j]. unfold chebyshev. simpl. split.
  - intros H. f_equal; lia.
  - intros [= -> ->]. lia.
Qed.

Lemma chebyshev_nonneg cell n : 0 ≤ chebyshev n cell.
Proof. unfold chebyshev. lia. Qed.

Lemma neighbour_block h w cell n :
  neighbour h w cell n ↔ n ∈ block cell ∧ n ≠ cell ∧ in_bounds h w n = true.
Proof.
  unfold neighbour. rewrite elem_of_block.
  pose proof (chebyshev_zero cell n). pose proof (chebyshev_nonneg cell n).
  split.
  - intros [H1 H2]. split_and!; [lia| |done]. intros Heq%H. lia.
  - intros (H1 & H2 & H3). split; [|done].
    assert (chebyshev n cell ≠ 0) by tauto. lia.
Qed.

End neighbours.

Section observe_facts.
Implicit Types (cell n : Cell) (ai : MinesweeperAI).

Lemma scan_fold ai cell l cs k :
  foldl (scan_body ai cell) (cs, k) l =
  (list_to_set (filter (λ n, n ≠ cell ∧ in_bounds (height ai) (width ai) n = true
                             ∧ (n ∉ mines ai) ∧ n ∉ safes ai) l) ∪ cs,
   k - Z.of_nat (length (filter (λ n, n ≠ cell ∧ in_bounds (height ai) (width ai) n = true
                                      ∧ n ∈ mines ai) l))).
Proof.
  revert cs k. induction l as [|n l IH]; intros cs k.
  - simpl. f_equal; [set_solver|lia].
  - simpl foldl. rewrite !filter_cons. unfold scan_body at 2.
    destruct (decide (cell = n)) as [->|Hne].
    { rewrite !decide_False by tauto. apply IH. }
    destruct (in_bounds (height ai) (width ai) n) eqn:Hb.
    2:{ rewrite !decide_False by (intros (?&?&?); done). apply IH. }
    destruct (decide (n ∈ mines ai)) as [Hm|Hm].
    { rewrite bool_decide_eq_true_2 by done. simpl.
      rewrite decide_False by tauto. rewrite decide_True by done.
      rewrite IH. simpl length. f_equal. lia. }
    rewrite (bool_decide_eq_false_2 (n ∈ mines ai)) by done. simpl.
    rewrite (decide_False (P:=_ ∧ _ ∧ n ∈ _)) by tauto.
    destruct (decide (n ∈ safes ai)) as [Hs|Hs].
    { rewrite bool_decide_eq_true_2 by done. simpl.
      rewrite decide_False by tauto. apply IH. }
    rewrite bool_decide_eq_false_2 by done. simpl.
    rewrite decide_True by done. rewrite IH. simpl.
    f_equal. set_solver.
Qed.

Lemma scan_cells ai cell k n :
  n ∈ (scan ai cell k).1 ↔
  neighbour (height ai) (width ai) cell n ∧ (n ∉ mines ai) ∧ n ∉ safes ai.
Proof.
  unfold scan. rewrite scan_fold. simpl.
  rewrite elem_of_union, elem_of_list_to_set, list_elem_of_filter, neighbour_block.
  set_solver.
Qed.

Lemma scan_count ai cell k :
  (scan ai cell k).2 =
  k - Z.of_nat (size (filter (neighbour (height ai) (width ai) cell) (mines ai))).
Proof.
  unfold scan. rewrite scan_fold. simpl. do 2 f_equal.
  rewrite <- (size_list_to_set (C:=gset Cell))
    by apply NoDup_filter, NoDup_block.
  f_equal. apply set_eq. intros n.
  rewrite elem_of_list_to_set, list_elem_of_filter, elem_of_filter, neighbour_block.
  tauto.
Qed.

End observe_facts.

Lemma observe_fields (ai : MinesweeperAI) (cell : Cell) (k : Z) :
  let ai' := observe ai cell k in
  let h := height ai in
  let w := width ai in
  (∀ fuel, add_knowledge fuel ai cell k = infer fuel ai') ∧
  height ai' = h ∧ width ai' = w ∧
  moves_made ai' = {[cell]} ∪ moves_made ai ∧
  safes ai' = {[cell]} ∪ safes ai ∧
  mines ai' = mines ai ∧
  ∃ new,
    knowledge ai' = ((λ s, Sentence.mark_safe s cell) <$> knowledge ai) ++ [new] ∧
    (∀ n, n ∈ cells new ↔ neighbour h w cell n ∧ (n ∉ mines ai) ∧ n ∉ safes ai) ∧
    (∀ n, n ∈ cells new → n ≠ cell ∧ n ∉ safes ai') ∧
    count new = k - Z.of_nat (size (filter (neighbour h w cell) (mines ai))).
Proof.
  intros ai' h w. split; [done|]. subst ai'. unfold observe.
  set (ai2 := mark_safe _ cell).
  destruct (scan ai2 cell k) as [cs k'] eqn:Hscan. simpl.
  split_and!; [done..|].
  exists (mkSentence cs k'). simpl.
  assert (cs = (scan ai2 cell k).1) as Hcs by (by rewrite Hscan).
  assert (k' = (scan ai2 cell k).2) as Hk by (by rewrite Hscan).
  assert (∀ n, n ∈ cs ↔ neighbour h w cell n ∧ (n ∉ mines ai) ∧ n ∉ safes ai) as Hin.
  { intros n. rewrite Hcs, scan_cells. simpl. fold h w.
    split; [set_solver|]. intros (Hn & ? & ?). split_and!; [done..|].
    apply neighbour_block in Hn as (_ & ? & _). set_solver. }
  split_and!; [done|done| |].
  - intros n Hn. apply Hin in Hn as (Hn & ? & ?).
    apply neighbour_block in Hn as (_ & ? & _). set_solver.
  - rewrite Hk, scan_count. done.
Qed.

(** C3: [add_knowledge] first adds the cell to [moves_made] and marks it
    safe, then appends one sentence before it starts the inference loop: its
    cells are the in-bounds cells at Chebyshev distance 1 from the cell that
    are neither known mines nor known safes, and its count is the given
    count minus the number of in-bounds neighbours that are known mines. *)
Theorem observe_spec (ai : MinesweeperAI) (cell : Cell) (k : Z) :
  let ai' := observe ai cell k in
  let h := height ai in
  let w := width ai in
  (∀ fuel, add_knowledge fuel ai cell k = infer fuel ai') ∧
  height ai' = h ∧ width ai' = w ∧
  moves_made ai' = {[cell]} ∪ moves_made ai ∧
  safes ai' = {[cell]} ∪ safes ai ∧
  mines ai' = mines ai ∧
  ∃ new,
    knowledge ai' = ((λ s, Sentence.mark_safe s cell) <$> knowledge ai) ++ [new] ∧
    (∀ n, n ∈ cells new ↔ neighbour h w cell n ∧ (n ∉ mines ai) ∧ n ∉ safes ai) ∧
    (∀ n, n ∈ cells new → n ≠ cell ∧ n ∉ safes ai') ∧
    count new = k - Z.of_nat (size (filter (neighbour h w cell) (mines ai))).
Proof. apply observe_fields. Qed.

(** ** Subtracting nested sentences *)

Section result_facts.
Context {A B : Type}.
Implicit Types (m : result A) (k : A → result B).

Lemma bind_Ret a k : Ret a ≫= k = k a.
Proof. done. Qed.

Lemma bind_Ret_inv m k b :
  m ≫= k = Ret b → ∃ a, m = Ret a ∧ k a = Ret b.
Proof. destruct m; [eauto|done..]. Qed.

Lemma bind_OutOfFuel m k :
  m = OutOfFuel → m ≫= k = OutOfFuel.
Proof. by intros ->. Qed.
End result_facts.

Section subtraction.
Implicit Types (s big small : Sentence) (X Y : gset Cell) (kb : list Sentence).

Lemma remove_each_ok X (l : list Cell) :
  NoDup l → (∀ c, c ∈ l → c ∈ X) →
  remove_each X l = Ret (X ∖ list_to_set l).
Proof.
  revert X. induction l as [|c l IH]; intros X Hnd Hin; simpl.
  - f_equal. set_solver.
  - apply NoDup_cons in Hnd as [Hc Hnd].
    unfold set_remove. rewrite decide_True by (apply Hin; left).
    rewrite bind_Ret, IH; [f_equal; set_solver|done|].
    intros c' Hc'. apply elem_of_difference. split.
    + apply Hin. by right.
    + intros ->%elem_of_singleton. done.
Qed.

Lemma remove_each_elements X Y :
  Y ⊆ X → remove_each X (elements Y) = Ret (X ∖ Y).
Proof.
  intros Hsub. rewrite remove_each_ok.
  - by rewrite list_to_set_elements_L.
  - apply NoDup_elements.
  - intros c Hc%elem_of_elements. auto.
Qed.

(** [subtract] is called after [is_subset] said yes on unequal cell sets:
    it then never raises and yields the difference. *)
Lemma subtract_nested_l s1 s2 :
  cells s1 ⊂ cells s2 → subtract s1 s2 = Ret (difference s2 s1).
Proof.
  intros Hsub. unfold subtract.
  pose proof (subset_size _ _ Hsub) as Hsz.
  destruct (Nat.ltb_spec (size (cells s2)) (size (cells s1))); [lia|].
  rewrite remove_each_elements by apply Hsub. done.
Qed.

Lemma subtract_nested_r s1 s2 :
  cells s2 ⊂ cells s1 → subtract s1 s2 = Ret (difference s1 s2).
Proof.
  intros Hsub. unfold subtract.
  pose proof (subset_size _ _ Hsub) as Hsz.
  destruct (Nat.ltb_spec (size (cells s2)) (size (cells s1))); [|lia].
  rewrite remove_each_elements by apply Hsub. done.
Qed.

Lemma strict_subset_asym X Y : X ⊂ Y → Y ⊂ X → False.
Proof. intros [_ Hn] [Hs _]. auto. Qed.

Lemma derived_comm s1 s2 : derived s1 s2 = derived s2 s1.
Proof.
  unfold derived. repeat case_decide; try done.
  exfalso. eauto using strict_subset_asym.
Qed.

Lemma derived_Some s1 s2 d :
  derived s1 s2 = Some d ↔
  (cells s1 ⊂ cells s2 ∧ d = difference s2 s1) ∨
  (cells s2 ⊂ cells s1 ∧ d = difference s1 s2).
Proof.
  unfold derived. repeat case_decide; split; try naive_solver.
  intros [[? ->]|[? ->]]; [done|].
  exfalso. eauto using strict_subset_asym.
Qed.

Lemma derived_equal_cells s1 s2 : cells s1 = cells s2 → derived s1 s2 = None.
Proof.
  intros Heq. unfold derived. rewrite Heq.
  rewrite !decide_False; [done|apply irreflexivity, _..].
Qed.

(** The body of the inner loop in terms of [derived]: it never raises. *)
Lemma pair_body_spec kb changed s1 s2 :
  pair_body kb changed s1 s2 = Ret (append_new kb changed (derived s1 s2)).
Proof.
  unfold pair_body. case_decide as Heq.
  { by rewrite derived_equal_cells. }
  destruct (is_subset s1 s2) eqn:Hsub.
  - apply (is_subset_nested _ _ Heq) in Hsub as [Hsub|Hsub].
    + rewrite subtract_nested_l by done. unfold derived.
      rewrite decide_True by done. simpl. by case_decide.
    + rewrite subtract_nested_r by done. unfold derived.
      rewrite decide_False, decide_True; [|done|].
      * simpl. by case_decide.
      * eauto using strict_subset_asym.
  - assert (derived s1 s2 = None) as ->; [|done].
    unfold derived. rewrite !decide_False; [done|..].
    + intros Hn. assert (is_subset s1 s2 = true); [|congruence].
      apply is_subset_nested; auto.
    + intros Hn. assert (is_subset s1 s2 = true); [|congruence].
      apply is_subset_nested; auto.
Qed.

End subtraction.

Section subset_loop_facts.
Implicit Types (s d : Sentence) (kb : list Sentence) (ch changed : bool).
Implicit Types (i j fuel : nat).

Lemma subset_loop_unfold fuel i j kb ch :
  subset_loop (S fuel) i j kb ch =
  match kb !! i with
  | None => Ret (kb, ch)
  | Some s1 =>
      match kb !! j with
      | None => subset_loop fuel (S i) 0 kb ch
      | Some s2 =>
          subset_loop fuel i (S j)
            (append_new kb ch (derived s1 s2)).1
            (append_new kb ch (derived s1 s2)).2
      end
  end.
Proof.
  simpl. destruct (kb !! i) as [s1|]; [|done].
  destruct (kb !! j) as [s2|]; [|done].
  rewrite pair_body_spec, bind_Ret.
  by destruct (append_new kb ch (derived s1 s2)).
Qed.

Lemma append_new_cases kb ch od :
  append_new kb ch od = (kb, ch) ∨
  ∃ d, od = Some d ∧ (d ∉ kb) ∧ append_new kb ch od = (kb ++ [d], true).
Proof.
  destruct od as [d|]; simpl; [|by left].
  case_decide; [by left|right; eauto].
Qed.

Lemma append_new_elem kb ch d :
  d ∈ (append_new kb ch (Some d)).1.
Proof.
  simpl. case_decide; simpl; [done|].
  apply elem_of_app. right. by left.
Qed.

Lemma append_new_prefix kb ch od : kb `prefix_of` (append_new kb ch od).1.
Proof.
  destruct (append_new_cases kb ch od) as [->|(d & _ & _ & ->)]; simpl.
  - done.
  - by apply prefix_app_r.
Qed.

(** The loops never raise. *)
Lemma subset_loop_no_raise fuel i j kb ch e :
  subset_loop fuel i j kb ch ≠ Raise e.
Proof.
  revert i j kb ch. induction fuel as [|fuel IH]; intros i j kb ch; [done|].
  rewrite subset_loop_unfold.
  destruct (kb !! i); [|done]. destruct (kb !! j); apply IH.
Qed.

(** More fuel does not change an answer. *)
Lemma subset_loop_mono fuel fuel' i j kb ch r :
  subset_loop fuel i j kb ch = Ret r → (fuel ≤ fuel')%nat →
  subset_loop fuel' i j kb ch = Ret r.
Proof.
  revert fuel' i j kb ch.
  induction fuel as [|fuel IH]; intros fuel' i j kb ch Hr Hle; [done|].
  destruct fuel' as [|fuel']; [lia|].
  rewrite subset_loop_unfold in Hr |- *.
  destruct (kb !! i); [|done].
  destruct (kb !! j); apply IH; (done || lia).
Qed.

(** An invariant of the loop positions that is kept by both kinds of step
    holds when the loops are left. *)
Lemma subset_loop_invariant (P : nat → nat → list Sentence → bool → Prop) :
  (∀ i j kb ch s1,
     kb !! i = Some s1 → kb !! j = None → P i j kb ch → P (S i) 0%nat kb ch) →
  (∀ i j kb ch s1 s2,
     kb !! i = Some s1 → kb !! j = Some s2 → P i j kb ch →
     P i (S j) (append_new kb ch (derived s1 s2)).1
               (append_new kb ch (derived s1 s2)).2) →
  ∀ fuel i j kb ch kb' ch',
    P i j kb ch → subset_loop fuel i j kb ch = Ret (kb', ch') →
    ∃ i' j', P i' j' kb' ch' ∧ kb' !! i' = None.
Proof.
  intros Hnext Hpair fuel.
  induction fuel as [|fuel IH]; intros i j kb ch kb' ch' HP Hr; [done|].
  rewrite subset_loop_unfold in Hr.
  destruct (kb !! i) as [s1|] eqn:Hi.
  - destruct (kb !! j) as [s2|] eqn:Hj.
    + eapply IH; [|done]. by apply Hpair.
    + eapply IH; [|done]. by eapply Hnext.
  - injection Hr as <- <-. eauto.
Qed.

(** What the loops leave is the list they found followed by new
    sentences, each derived from a pair of the final list and none equal to
    an earlier sentence; the flag is raised exactly when there are any. *)
Lemma subset_loop_appends fuel i j kb ch kb' ch' :
  subset_loop fuel i j kb ch = Ret (kb', ch') →
  ∃ added,
    kb' = kb ++ added ∧ NoDup added ∧
    (∀ d, d ∈ added → (d ∉ kb) ∧
       ∃ s1 s2, s1 ∈ kb' ∧ s2 ∈ kb' ∧ derived s1 s2 = Some d) ∧
    ch' = ch || bool_decide (added ≠ []).
Proof.
  intros Hr.
  pose (P := λ (i j : nat) (kb1 : list Sentence) (ch1 : bool),
    ∃ added,
      kb1 = kb ++ added ∧ NoDup added ∧
      (∀ d, d ∈ added → (d ∉ kb) ∧
         ∃ s1 s2, s1 ∈ kb1 ∧ s2 ∈ kb1 ∧ derived s1 s2 = Some d) ∧
      ch1 = ch || bool_decide (added ≠ [])).
  cut (∃ i' j', P i' j' kb' ch' ∧ kb' !! i' = None).
  { intros (i' & j' & HP & _). exact HP. }
  eapply (subset_loop_invariant P); [| | |exact Hr].
  - intros ????? _ _ HP. exact HP.
  - clear. intros i j kb1 ch1 s1 s2 Hi Hj (added & -> & Hnd & Hadd & ->).
    destruct (append_new_cases (kb ++ added) (ch || bool_decide (added ≠ []))
                (derived s1 s2)) as [->|(d & Hd & Hnew & ->)]; simpl.
    + exists added. done.
    + exists (added ++ [d]). split_and!.
      * by rewrite <- app_assoc.
      * apply NoDup_app. split_and!; [done| |apply NoDup_singleton].
        intros x Hx ->%list_elem_of_singleton. apply Hnew.
        apply elem_of_app. by right.
      * intros x [Hx| ->%list_elem_of_singleton]%elem_of_app.
        -- destruct (Hadd x Hx) as (? & t1 & t2 & ? & ? & ?).
           split; [done|]. exists t1, t2.
           split_and!; [apply elem_of_app; by left..|done].
        -- split.
           ++ intros Hk. apply Hnew, elem_of_app. by left.
           ++ exists s1, s2. apply list_elem_of_lookup_2 in Hi, Hj.
              split_and!; [apply elem_of_app; by left..|done].
      * rewrite (bool_decide_eq_true_2 (added ++ [d] ≠ [])).
        -- by rewrite orb_true_r.
        -- by destruct added.
  - exists []. rewrite app_nil_r. split_and!; [done|constructor| |].
    + intros d Hd. by apply elem_of_nil in Hd.
    + by rewrite orb_false_r.
Qed.

(** The loops leave a list closed under [derived]. *)
Lemma subset_loop_closed fuel kb ch kb' ch' :
  subset_loop fuel 0 0 kb ch = Ret (kb', ch') → closed kb'.
Proof.
  intros Hr.
  pose (P := λ (i j : nat) (kb1 : list Sentence) (ch1 : bool),
    (i ≤ length kb1)%nat ∧ (j ≤ length kb1)%nat ∧
    ∀ a b sa sb d,
      kb1 !! a = Some sa → kb1 !! b = Some sb → derived sa sb = Some d →
      (a < i ∧ b < i)%nat ∨ (a = i ∧ b < j)%nat ∨ (b = i ∧ a < j)%nat →
      d ∈ kb1).
  cut (∃ i' j', P i' j' kb' ch' ∧ kb' !! i' = None).
  { intros (i' & j' & (_ & _ & HP) & Hend). apply lookup_ge_None in Hend.
    intros s1 s2 d [a Ha]%list_elem_of_lookup [b Hb]%list_elem_of_lookup Hd.
    pose proof (lookup_lt_Some _ _ _ Ha). pose proof (lookup_lt_Some _ _ _ Hb).
    apply (HP a b s1 s2 d Ha Hb Hd). lia. }
  eapply (subset_loop_invariant P); [| | |exact Hr].
  - clear. intros i j kb ch s1 Hi Hj (Hil & Hjl & HP).
    apply lookup_lt_Some in Hi. apply lookup_ge_None in Hj.
    split_and!; [lia..|].
    intros a b sa sb d Ha Hb Hd Hcov.
    pose proof (lookup_lt_Some _ _ _ Ha). pose proof (lookup_lt_Some _ _ _ Hb).
    apply (HP a b sa sb d Ha Hb Hd). lia.
  - clear. intros i j kb ch s1 s2 Hi Hj (Hil & Hjl & HP).
    pose proof (lookup_lt_Some _ _ _ Hi) as Hil'.
    pose proof (lookup_lt_Some _ _ _ Hj) as Hjl'.
    pose proof (append_new_prefix kb ch (derived s1 s2)) as [ext Hext].
    rewrite Hext. split_and!; [rewrite length_app; lia..|].
    intros a b sa sb d Ha Hb Hd Hcov.
    assert ((a < i ∧ b < i)%nat ∨ (a = i ∧ b < j)%nat ∨ (b = i ∧ a < j)%nat
            ∨ (a = i ∧ b = j) ∨ (b = i ∧ a = j)) as Hcov' by lia.
    clear Hcov.
    assert (a < length kb ∧ b < length kb)%nat as [Hal Hbl] by lia.
    rewrite lookup_app_l in Ha, Hb by done.
    destruct Hcov' as [Hc|[Hc|[Hc|[[-> ->]|[-> ->]]]]].
    + apply elem_of_app. left. apply (HP a b sa sb d); auto.
    + apply elem_of_app. left. apply (HP a b sa sb d); auto.
    + apply elem_of_app. left. apply (HP a b sa sb d); auto.
    + assert (sa = s1) as -> by congruence. assert (sb = s2) as -> by congruence.
      rewrite <- Hext, Hd. apply append_new_elem.
    + assert (sa = s2) as -> by congruence. assert (sb = s1) as -> by congruence.
      rewrite derived_comm in Hd. rewrite <- Hext, Hd. apply append_new_elem.
  - split_and!; [lia..|]. intros; lia.
Qed.

End subset_loop_facts.

(** ** Sentences that hold on a board *)

Section truth.
Context (B : gset Cell).
Implicit Types (s : Sentence) (c cell : Cell) (kb : list Sentence).

Lemma holds_mark_safe s c : holds B s → c ∉ B → holds B (Sentence.mark_safe s c).
Proof.
  unfold holds. intros Hs Hc.
  rewrite count_mark_safe, cells_mark_safe, Hs. do 2 f_equal. set_solver.
Qed.

Lemma holds_mark_mine s c : holds B s → c ∈ B → holds B (Sentence.mark_mine s c).
Proof.
  unfold holds. intros Hs Hc.
  destruct (decide (c ∈ cells s)) as [Hin|Hin].
  - rewrite mark_mine_in by done. simpl. rewrite Hs.
    rewrite (size_remove_elem (cells s ∩ B) c) by set_solver.
    replace ((cells s ∖ {[c]}) ∩ B) with ((cells s ∩ B) ∖ {[c]}) by set_solver.
    lia.
  - by rewrite mark_mine_notin.
Qed.

Lemma holds_difference s1 s2 :
  cells s1 ⊆ cells s2 → holds B s1 → holds B s2 → holds B (difference s2 s1).
Proof.
  unfold holds, difference. intros Hsub H1 H2. simpl. rewrite H1, H2.
  replace ((cells s2 ∖ cells s1) ∩ B) with ((cells s2 ∩ B) ∖ (cells s1 ∩ B))
    by set_solver.
  rewrite (size_difference (cells s2 ∩ B) (cells s1 ∩ B)) by set_solver.
  assert (size (cells s1 ∩ B) ≤ size (cells s2 ∩ B))%nat
    by (apply subseteq_size; set_solver).
  lia.
Qed.

Lemma holds_derived s1 s2 d :
  holds B s1 → holds B s2 → derived s1 s2 = Some d → holds B d.
Proof.
  intros H1 H2 [[[Hs _] ->]|[[Hs _] ->]]%derived_Some;
    by apply holds_difference.
Qed.

(** A sentence that holds is determined by its cells. *)
Lemma holds_same_cells s1 s2 :
  holds B s1 → holds B s2 → cells s1 = cells s2 → s1 = s2.
Proof.
  unfold holds. destruct s1, s2. simpl. intros -> -> ->. done.
Qed.

Lemma known_safes_sound s c : holds B s → c ∈ Sentence.known_safes s → c ∉ B.
Proof.
  unfold holds, Sentence.known_safes. intros Hs.
  destruct (Z.eqb_spec (count s) 0) as [H0|H0]; [|set_solver].
  intros Hc HB.
  assert (size (cells s ∩ B) = 0%nat) as Hz%size_empty_iff by lia.
  set_solver.
Qed.

Lemma known_mines_sound s c : holds B s → c ∈ Sentence.known_mines s → c ∈ B.
Proof.
  unfold holds, Sentence.known_mines. intros Hs. simpl.
  destruct (Z.eqb_spec (Z.of_nat (size (cells s))) (count s)) as [He|He];
    simpl; [|set_solver].
  destruct (negb (count s =? 0)); [|set_solver].
  intros Hc.
  assert (cells s ∩ B = cells s) as Heq.
  { apply subseteq_size_ge_eq; [set_solver|lia]. }
  set_solver.
Qed.

End truth.

Section marking.
Implicit Types (s : Sentence) (c cell : Cell) (kb : list Sentence).
Implicit Types (ai : MinesweeperAI) (l : list Cell).

Lemma known_safes_subseteq s : Sentence.known_safes s ⊆ cells s.
Proof. unfold Sentence.known_safes. case_match; set_solver. Qed.

Lemma known_mines_subseteq s : Sentence.known_mines s ⊆ cells s.
Proof. unfold Sentence.known_mines. simpl. case_match; set_solver. Qed.

Lemma foldl_union_elem {A} (f : A → gset Cell) (l : list A) (acc : gset Cell) c :
  c ∈ foldl (λ acc x, acc ∪ f x) acc l ↔ c ∈ acc ∨ ∃ x, x ∈ l ∧ c ∈ f x.
Proof.
  revert acc. induction l as [|x l IH]; intros acc; simpl.
  - split; [auto|]. intros [?|(x & Hx & _)]; [done|]. by apply elem_of_nil in Hx.
  - rewrite IH, elem_of_union. split.
    + intros [[?|?]|(y & ? & ?)]; [by left|right..].
      * exists x. split; [left|done].
      * exists y. split; [by right|done].
    + intros [?|(y & [->|?]%elem_of_cons & ?)]; [by left; left|by left; right|].
      right. eauto.
Qed.

Lemma elem_of_all_known_safes kb c :
  c ∈ all_known_safes kb ↔ ∃ s, s ∈ kb ∧ c ∈ Sentence.known_safes s.
Proof.
  unfold all_known_safes. rewrite foldl_union_elem. set_solver.
Qed.

Lemma elem_of_all_known_mines kb c :
  c ∈ all_known_mines kb ↔ ∃ s, s ∈ kb ∧ c ∈ Sentence.known_mines s.
Proof.
  unfold all_known_mines. rewrite foldl_union_elem. set_solver.
Qed.

Lemma elem_of_mentioned kb c : c ∈ mentioned kb ↔ ∃ s, s ∈ kb ∧ c ∈ cells s.
Proof.
  unfold mentioned. rewrite elem_of_union_list. split.
  - intros (X & (s & -> & ?)%list_elem_of_fmap & ?). eauto.
  - intros (s & ? & ?). exists (cells s). split; [|done].
    apply list_elem_of_fmap. eauto.
Qed.

Lemma cells_foldl_mark_safe s l :
  cells (foldl Sentence.mark_safe s l) = cells s ∖ list_to_set l.
Proof.
  revert s. induction l as [|c l IH]; intros s; simpl.
  - set_solver.
  - rewrite IH, cells_mark_safe. set_solver.
Qed.

Lemma cells_foldl_mark_mine s l :
  cells (foldl Sentence.mark_mine s l) = cells s ∖ list_to_set l.
Proof.
  revert s. induction l as [|c l IH]; intros s; simpl.
  - set_solver.
  - rewrite IH, cells_mark_mine. set_solver.
Qed.

Lemma foldl_mark_safe ai l :
  foldl mark_safe ai l =
  mkAI (height ai) (width ai) (moves_made ai) (mines ai)
       (list_to_set l ∪ safes ai)
       ((λ s, foldl Sentence.mark_safe s l) <$> knowledge ai).
Proof.
  revert ai. induction l as [|c l IH]; intros ai; simpl.
  - destruct ai. simpl. f_equal; [set_solver|]. by rewrite list_fmap_id.
  - rewrite IH. simpl. f_equal; [set_solver|].
    by rewrite <- list_fmap_compose.
Qed.

Lemma foldl_mark_mine ai l :
  foldl mark_mine ai l =
  mkAI (height ai) (width ai) (moves_made ai)
       (list_to_set l ∪ mines ai) (safes ai)
       ((λ s, foldl Sentence.mark_mine s l) <$> knowledge ai).
Proof.
  revert ai. induction l as [|c l IH]; intros ai; simpl.
  - destruct ai. simpl. f_equal; [set_solver|]. by rewrite list_fmap_id.
  - rewrite IH. simpl. f_equal; [set_solver|].
    by rewrite <- list_fmap_compose.
Qed.

Lemma holds_foldl_mark_safe B s l :
  holds B s → (∀ c, c ∈ l → c ∉ B) → holds B (foldl Sentence.mark_safe s l).
Proof.
  revert s. induction l as [|c l IH]; intros s Hs Hl; simpl; [done|].
  apply IH.
  - apply holds_mark_safe; [done|]. apply Hl. by left.
  - intros c' Hc'. apply Hl. by right.
Qed.

Lemma holds_foldl_mark_mine B s l :
  holds B s → (∀ c, c ∈ l → c ∈ B) → holds B (foldl Sentence.mark_mine s l).
Proof.
  revert s. induction l as [|c l IH]; intros s Hs Hl; simpl; [done|].
  apply IH.
  - apply holds_mark_mine; [done|]. apply Hl. by left.
  - intros c' Hc'. apply Hl. by right.
Qed.

(** [mark_known] in one piece: the cells that the sentences give away are
    added to [safes] and [mines] and taken out of every sentence. *)
Lemma mark_known_spec ai :
  let S := all_known_safes (knowledge ai) in
  let M := all_known_mines (knowledge ai) in
  mark_known ai =
  (mkAI (height ai) (width ai) (moves_made ai) (M ∪ mines ai) (S ∪ safes ai)
        ((λ s, foldl Sentence.mark_mine
                 (foldl Sentence.mark_safe s (elements S)) (elements M))
           <$> knowledge ai),
   bool_decide (S ≠ ∅ ∨ M ≠ ∅)).
Proof.
  intros S M. unfold mark_known. fold S M.
  assert (∀ X : gset Cell, (0 <? size X)%nat = bool_decide (X ≠ ∅)) as Hsz.
  { intros X. destruct (Nat.ltb_spec 0 (size X)) as [Hlt|Hle].
    - symmetry. apply bool_decide_eq_true_2. intros ->.
      rewrite size_empty in Hlt. lia.
    - symmetry. apply bool_decide_eq_false_2. intros Hne. apply Hne.
      apply leibniz_equiv, size_empty_iff. lia. }
  rewrite !Hsz.
  destruct (decide (S = ∅)) as [HS|HS], (decide (M = ∅)) as [HM|HM].
  - rewrite HS, HM. rewrite !bool_decide_eq_false_2 by tauto.
    rewrite elements_empty, !(left_id_L ∅ (∪)). simpl.
    rewrite list_fmap_id. by destruct ai.
  - rewrite HS. rewrite (bool_decide_eq_false_2 (∅ ≠ ∅)) by tauto.
    rewrite !bool_decide_eq_true_2 by tauto.
    rewrite foldl_mark_mine, elements_empty, list_to_set_elements_L. simpl.
    by rewrite (left_id_L ∅ (∪)).
  - rewrite HM. rewrite (bool_decide_eq_false_2 (∅ ≠ ∅)) by tauto.
    rewrite !bool_decide_eq_true_2 by tauto.
    rewrite foldl_mark_safe, elements_empty, list_to_set_elements_L. simpl.
    by rewrite (left_id_L ∅ (∪)).
  - rewrite !bool_decide_eq_true_2 by tauto.
    rewrite foldl_mark_mine, foldl_mark_safe, !list_to_set_elements_L. simpl.
    by rewrite <- list_fmap_compose.
Qed.

End marking.

(** ** The passes of the inference loop *)

Section passes.
Implicit Types (s : Sentence) (c cell : Cell) (kb : list Sentence).
Implicit Types (ai : MinesweeperAI) (b : Minesweeper).

Lemma elem_of_prune kb s : s ∈ prune kb ↔ s ∈ kb ∧ cells s ≠ ∅.
Proof.
  induction kb as [|t kb IH]; simpl.
  - rewrite elem_of_nil. tauto.
  - destruct (Nat.eqb_spec (size (cells t)) 0) as [Hz|Hz].
    + apply size_empty_iff, leibniz_equiv in Hz.
      rewrite IH, elem_of_cons. split; [tauto|].
      intros [[->|?] ?]; tauto.
    + assert (cells t ≠ ∅) by (intros Heq; by rewrite Heq, size_empty in Hz).
      rewrite !elem_of_cons, IH. split; [|tauto].
      intros [->|?]; tauto.
Qed.

Lemma prune_idemp kb : prune (prune kb) = prune kb.
Proof.
  induction kb as [|t kb IH]; simpl; [done|].
  destruct (size (cells t) =? 0)%nat eqn:Hz; [done|].
  simpl. by rewrite Hz, IH.
Qed.

Lemma pass_unfold fuel ai :
  pass fuel ai =
  '(kb', changed') ← subset_loop fuel 0 0 (prune (knowledge (mark_known ai).1))
                                 (mark_known ai).2;
  Ret (mkAI (height ai) (width ai) (moves_made ai)
            (mines (mark_known ai).1) (safes (mark_known ai).1) kb',
       changed').
Proof.
  unfold pass. rewrite (mark_known_spec ai). done.
Qed.

Lemma pass_no_raise fuel ai e : pass fuel ai ≠ Raise e.
Proof.
  rewrite pass_unfold.
  destruct (subset_loop _ _ _ _ _) as [[??]|e'|] eqn:Hl; try done.
  by apply subset_loop_no_raise in Hl.
Qed.

Lemma pass_mono fuel fuel' ai r :
  pass fuel ai = Ret r → (fuel ≤ fuel')%nat → pass fuel' ai = Ret r.
Proof.
  rewrite !pass_unfold. intros Hr Hle.
  apply bind_Ret_inv in Hr as ([kb' ch'] & Hl & Hr).
  by rewrite (subset_loop_mono _ _ _ _ _ _ _ Hl Hle).
Qed.

Lemma infer_unfold fuel ai :
  infer (S fuel) ai =
  '(ai', knowledge_changed) ← pass fuel ai;
  if knowledge_changed : bool then infer fuel ai' else Ret ai'.
Proof. done. Qed.

Lemma infer_no_raise fuel ai e : infer fuel ai ≠ Raise e.
Proof.
  revert ai. induction fuel as [|fuel IH]; intros ai; [done|].
  rewrite infer_unfold.
  destruct (pass fuel ai) as [[ai' []]|e'|] eqn:Hp; simpl; try done.
  by apply pass_no_raise in Hp.
Qed.

Lemma infer_mono fuel fuel' ai r :
  infer fuel ai = Ret r → (fuel ≤ fuel')%nat → infer fuel' ai = Ret r.
Proof.
  revert fuel' ai. induction fuel as [|fuel IH]; intros fuel' ai Hr Hle; [done|].
  destruct fuel' as [|fuel']; [lia|].
  rewrite infer_unfold in Hr |- *.
  apply bind_Ret_inv in Hr as ([ai' ch] & Hp & Hr).
  rewrite (pass_mono _ fuel' _ _ Hp) by lia. simpl.
  destruct ch; [|done]. apply IH; [done|lia].
Qed.

(** *** The passes keep the knowledge true *)

Lemma mark_known_consistent b ai :
  consistent b ai → consistent b (mark_known ai).1.
Proof.
  intros (Hh & Hw & Hs & Hm & Hk). rewrite mark_known_spec. simpl.
  rewrite Forall_forall in Hk.
  assert (∀ c, c ∈ all_known_safes (knowledge ai) → c ∉ b_mines b) as HS.
  { intros c (s & Hs' & Hc)%elem_of_all_known_safes.
    eapply known_safes_sound; eauto. }
  assert (∀ c, c ∈ all_known_mines (knowledge ai) → c ∈ b_mines b) as HM.
  { intros c (s & Hs' & Hc)%elem_of_all_known_mines.
    eapply known_mines_sound; eauto. }
  split_and!; [done|done|set_solver|set_solver|].
  apply Forall_fmap, Forall_forall. intros s Hin. simpl.
  apply holds_foldl_mark_mine; [apply holds_foldl_mark_safe; [auto|]|].
  - intros c Hc%elem_of_elements. auto.
  - intros c Hc%elem_of_elements. auto.
Qed.

Lemma subset_loop_holds B fuel i j kb ch kb' ch' :
  Forall (holds B) kb → subset_loop fuel i j kb ch = Ret (kb', ch') →
  Forall (holds B) kb'.
Proof.
  intros Hk Hr.
  pose (P := λ (i j : nat) (kb1 : list Sentence) (ch1 : bool),
               Forall (holds B) kb1).
  cut (∃ i' j', P i' j' kb' ch' ∧ kb' !! i' = None).
  { intros (i' & j' & HP & _). exact HP. }
  eapply (subset_loop_invariant P); [| | |exact Hr]; [| |done].
  - intros ????? _ _ HP. exact HP.
  - clear Hk Hr. intros i1 j1 kb1 ch1 s1 s2 Hi Hj HP. unfold P in *.
    destruct (append_new_cases kb1 ch1 (derived s1 s2))
      as [->|(d & Hd & _ & ->)]; simpl; [done|].
    apply Forall_app. split; [done|]. apply Forall_singleton.
    rewrite Forall_forall in HP.
    apply list_elem_of_lookup_2 in Hi, Hj.
    eapply holds_derived; [| |exact Hd]; auto.
Qed.

Lemma subset_loop_mentioned fuel i j kb ch kb' ch' :
  subset_loop fuel i j kb ch = Ret (kb', ch') → mentioned kb' = mentioned kb.
Proof.
  intros Hr.
  pose (P := λ (i j : nat) (kb1 : list Sentence) (ch1 : bool),
               mentioned kb1 = mentioned kb).
  cut (∃ i' j', P i' j' kb' ch' ∧ kb' !! i' = None).
  { intros (i' & j' & HP & _). exact HP. }
  eapply (subset_loop_invariant P); [| | |exact Hr]; [| |done].
  - intros ????? _ _ HP. exact HP.
  - clear Hr. intros i1 j1 kb1 ch1 s1 s2 Hi Hj HP. unfold P in *.
    destruct (append_new_cases kb1 ch1 (derived s1 s2))
      as [->|(d & Hd & _ & ->)]; simpl; [done|].
    rewrite <- HP. unfold mentioned at 1.
    rewrite fmap_app, union_list_app_L. simpl.
    fold (mentioned kb1).
    assert (cells d ⊆ mentioned kb1); [|set_solver].
    apply list_elem_of_lookup_2 in Hi, Hj.
    intros c Hc. apply elem_of_mentioned.
    apply derived_Some in Hd as [[_ ->]|[_ ->]]; simpl in Hc.
    + exists s2. set_solver.
    + exists s1. set_solver.
Qed.

Lemma pass_consistent b fuel ai ai' ch :
  consistent b ai → pass fuel ai = Ret (ai', ch) → consistent b ai'.
Proof.
  intros Hc Hr. rewrite pass_unfold in Hr.
  apply bind_Ret_inv in Hr as ([kb' ch'] & Hl & [= <- <-]).
  pose proof (mark_known_consistent b ai Hc) as (Hh & Hw & Hs & Hm & Hk).
  destruct Hc as (Hh0 & Hw0 & _).
  split_and!; simpl; [done..|].
  eapply subset_loop_holds; [|exact Hl].
  rewrite Forall_forall in Hk |- *.
  intros s [Hs' _]%elem_of_prune. auto.
Qed.

Lemma infer_consistent b fuel ai ai' :
  consistent b ai → infer fuel ai = Ret ai' → consistent b ai'.
Proof.
  revert ai. induction fuel as [|fuel IH]; intros ai Hc Hr; [done|].
  rewrite infer_unfold in Hr.
  apply bind_Ret_inv in Hr as ([ai1 ch] & Hp & Hr).
  pose proof (pass_consistent _ _ _ _ _ Hc Hp) as Hc1.
  destruct ch; [eauto|]. by injection Hr as <-.
Qed.

End passes.

(** ** Observations of a board *)

Section board.
Implicit Types (s : Sentence) (c cell n : Cell) (kb : list Sentence).
Implicit Types (ai : MinesweeperAI) (b : Minesweeper).

Lemma nearby_mines_fold b cell (l : list Cell) (k : Z) :
  foldl (λ count n,
           if decide (n = cell) then count
           else if in_bounds (b_height b) (b_width b) n
                then if Minesweeper.is_mine b n then count + 1 else count
                else count) k l =
  k + Z.of_nat (length (filter
        (λ n, n ≠ cell ∧ in_bounds (b_height b) (b_width b) n = true
              ∧ n ∈ b_mines b) l)).
Proof.
  revert k. induction l as [|n l IH]; intros k; simpl; [lia|].
  rewrite IH, filter_cons. unfold Minesweeper.is_mine.
  destruct (decide (n = cell)) as [->|Hne].
  { rewrite decide_False by tauto. done. }
  destruct (in_bounds (b_height b) (b_width b) n) eqn:Hb.
  2:{ rewrite decide_False by (intros (?&?&?); done). done. }
  destruct (decide (n ∈ b_mines b)) as [Hm|Hm].
  - rewrite bool_decide_eq_true_2, decide_True by done. simpl length. lia.
  - rewrite bool_decide_eq_false_2, decide_False by tauto. done.
Qed.

(** [nearby_mines] counts the mines among the neighbours of the cell. *)
Lemma nearby_mines_spec b cell :
  Minesweeper.nearby_mines b cell =
  Z.of_nat (size (filter (neighbour (b_height b) (b_width b) cell) (b_mines b))).
Proof.
  unfold Minesweeper.nearby_mines. rewrite nearby_mines_fold.
  rewrite Z.add_0_l. f_equal.
  rewrite <- (size_list_to_set (C:=gset Cell))
    by apply NoDup_filter, NoDup_block.
  f_equal. apply set_eq. intros n.
  rewrite elem_of_list_to_set, list_elem_of_filter, elem_of_filter, neighbour_block.
  tauto.
Qed.

Lemma observe_consistent b ai cell k :
  consistent b ai → truthful b cell k → consistent b (observe ai cell k).
Proof.
  intros (Hh & Hw & Hs & Hm & Hk) [Hcell ->].
  apply bool_decide_eq_false in Hcell.
  destruct (observe_fields ai cell (Minesweeper.nearby_mines b cell))
    as (_ & Hh' & Hw' & _ & Hs' & Hm' & new & Hkb & Hin & _ & Hcount).
  split_and!.
  - congruence.
  - congruence.
  - rewrite Hs'. set_solver.
  - by rewrite Hm'.
  - rewrite Hkb. apply Forall_app. split.
    + apply Forall_fmap. eapply Forall_impl; [exact Hk|].
      intros s Hs0. simpl. by apply holds_mark_safe.
    + apply Forall_singleton. unfold holds.
      rewrite Hcount, nearby_mines_spec, <- Hh, <- Hw.
      set (nb := neighbour (height ai) (width ai) cell).
      assert (cells new ∩ b_mines b =
              filter nb (b_mines b) ∖ filter nb (mines ai)) as ->.
      { apply set_eq. intros n.
        rewrite elem_of_intersection, Hin, elem_of_difference, !elem_of_filter.
        fold nb. split; [tauto|].
        intros [[? ?] Hn]. split_and!; [done|tauto| |done].
        intros ?. by apply (Hs n). }
      rewrite (size_difference (filter nb (b_mines b)) (filter nb (mines ai))).
      * assert (size (filter nb (mines ai)) ≤ size (filter nb (b_mines b)))%nat;
          [|lia].
        apply subseteq_size. intros n. rewrite !elem_of_filter. set_solver.
      * intros n. rewrite !elem_of_filter. set_solver.
Qed.

Lemma add_knowledge_consistent b fuel ai cell k ai' :
  consistent b ai → truthful b cell k →
  add_knowledge fuel ai cell k = Ret ai' → consistent b ai'.
Proof.
  intros Hc Ht Hr. eapply infer_consistent; [|exact Hr].
  by apply observe_consistent.
Qed.

Lemma consistent_disjoint b ai : consistent b ai → safes ai ## mines ai.
Proof. intros (_ & _ & Hs & Hm & _). set_solver. Qed.

End board.

(** ** Termination on sentences that hold *)

Section counting.
Implicit Types (s d : Sentence) (c : Cell) (kb : list Sentence).
Implicit Types (X Y U : gset Cell).

Lemma elem_of_subsets (l : list Cell) X :
  X ∈ subsets l ↔ X ⊆ list_to_set l.
Proof.
  revert X. induction l as [|c l IH]; intros X; simpl.
  - rewrite list_elem_of_singleton. set_solver.
  - rewrite elem_of_app, list_elem_of_fmap. split.
    + intros [HX|(Y & -> & HY)].
      * apply IH in HX. set_solver.
      * apply IH in HY. set_solver.
    + intros HX. destruct (decide (c ∈ X)) as [Hc|Hc].
      * right. exists (X ∖ {[c]}). split.
        -- apply set_eq. intros x. rewrite elem_of_union, elem_of_difference,
             elem_of_singleton.
           destruct (decide (x = c)) as [->|]; naive_solver.
        -- apply IH. set_solver.
      * left. apply IH. set_solver.
Qed.

Lemma elem_of_subsets_elements U X : X ∈ subsets (elements U) ↔ X ⊆ U.
Proof. by rewrite elem_of_subsets, list_to_set_elements_L. Qed.

(** A sentence with new, non-empty cells inside [U] uses up a candidate. *)
Lemma missing_append U kb d :
  cells d ⊆ U → cells d ≠ ∅ → cells d ∉ cells <$> kb →
  (missing U (kb ++ [d]) < missing U kb)%nat.
Proof.
  intros HU Hne Hnew. unfold missing.
  set (P := λ X : gset Cell, X ≠ ∅ ∧ X ∉ cells <$> kb).
  rewrite (list_filter_iff _ (λ X, X ≠ cells d ∧ P X)).
  2:{ intros X. unfold P. rewrite fmap_app, elem_of_app. simpl.
      rewrite list_elem_of_singleton. tauto. }
  rewrite <- list_filter_filter.
  apply length_filter_lt with (cells d); [|tauto].
  apply list_elem_of_filter. split; [done|].
  by apply elem_of_subsets_elements.
Qed.

Lemma missing_prune U kb : missing U (prune kb) = missing U kb.
Proof.
  unfold missing. f_equal. apply list_filter_iff. intros X.
  rewrite !list_elem_of_fmap.
  split; intros [Hne Hn]; (split; [done|]); intros (s & -> & Hs); apply Hn;
    exists s; (split; [done|]); apply elem_of_prune; tauto.
Qed.

End counting.

Section termination.
Context (B : gset Cell).
Implicit Types (s d : Sentence) (c : Cell) (kb : list Sentence).
Implicit Types (X Y U : gset Cell).

Lemma derived_cells s1 s2 d :
  derived s1 s2 = Some d →
  cells d ≠ ∅ ∧ (cells d ⊆ cells s1 ∨ cells d ⊆ cells s2).
Proof.
  intros [[[Hs Hn] ->]|[[Hs Hn] ->]]%derived_Some; simpl.
  - split; [|right; set_solver]. intros He. apply Hn. set_solver.
  - split; [|left; set_solver]. intros He. apply Hn. set_solver.
Qed.

(** On sentences that hold, the nested loops come to an end: every
    sentence they append has cells no earlier sentence has. *)
Lemma subset_loop_terminates U kb i j ch :
  Forall (holds B) kb → mentioned kb ⊆ U →
  ∃ fuel r, subset_loop fuel i j kb ch = Ret r.
Proof.
  remember (missing U kb) as n eqn:Hn.
  revert kb i j ch Hn.
  induction n as [n IHn] using lt_wf_ind. intros kb i j ch Hn Hk HU.
  remember (length kb - i)%nat as a eqn:Ha. revert i j ch Ha.
  induction a as [a IHa] using lt_wf_ind. intros i j ch Ha.
  remember (S (length kb) - j)%nat as m eqn:Hm. revert j ch Hm.
  induction m as [m IHm] using lt_wf_ind. intros j ch Hm.
  destruct (kb !! i) as [s1|] eqn:Hi.
  2:{ exists 1%nat, (kb, ch). simpl. by rewrite Hi. }
  pose proof (lookup_lt_Some _ _ _ Hi) as Hil.
  destruct (kb !! j) as [s2|] eqn:Hj.
  2:{ destruct (IHa (length kb - S i)%nat) with (i := S i) (j := 0%nat) (ch := ch)
        as (fuel & r & Hr); [lia|done|].
      exists (S fuel), r. by rewrite subset_loop_unfold, Hi, Hj. }
  pose proof (lookup_lt_Some _ _ _ Hj) as Hjl.
  destruct (append_new_cases kb ch (derived s1 s2))
    as [Heq|(d & Hd & Hnew & Heq)].
  - destruct (IHm (S (length kb) - S j)%nat) with (j := S j) (ch := ch)
      as (fuel & r & Hr); [lia|done|].
    exists (S fuel), r. by rewrite subset_loop_unfold, Hi, Hj, Heq.
  - pose proof (list_elem_of_lookup_2 _ _ _ Hi) as Hi'.
    pose proof (list_elem_of_lookup_2 _ _ _ Hj) as Hj'.
    rewrite Forall_forall in Hk.
    assert (holds B d) as Hhd by (eapply holds_derived; [| |exact Hd]; auto).
    destruct (derived_cells _ _ _ Hd) as [Hne Hsub].
    assert (cells d ⊆ U) as HdU.
    { etrans; [|exact HU]. intros c Hc. apply elem_of_mentioned.
      destruct Hsub; [exists s1|exists s2]; set_solver. }
    assert (cells d ∉ cells <$> kb) as Hfresh.
    { intros (s & Hcs & Hs)%list_elem_of_fmap. apply Hnew.
      rewrite (holds_same_cells B d s); auto. }
    destruct (IHn (missing U (kb ++ [d]))) with
      (kb := kb ++ [d]) (i := i) (j := S j) (ch := true)
      as (fuel & r & Hr).
    + subst n. by apply missing_append.
    + done.
    + apply Forall_app. split; [by apply Forall_forall|by apply Forall_singleton].
    + unfold mentioned. rewrite fmap_app, union_list_app_L. simpl.
      fold (mentioned kb). set_solver.
    + exists (S fuel), r. by rewrite subset_loop_unfold, Hi, Hj, Heq.
Qed.

End termination.

(** ** The end of the inference loop *)

Section fixed_point.
Implicit Types (s d : Sentence) (c : Cell) (kb : list Sentence).
Implicit Types (ai : MinesweeperAI) (b : Minesweeper).

Lemma length_filter_impl {A} (P Q : A → Prop)
    `{!∀ x, Decision (P x)} `{!∀ x, Decision (Q x)} (l : list A) :
  (∀ x, Q x → P x) → (length (filter Q l) ≤ length (filter P l))%nat.
Proof.
  intros HQP. induction l as [|x l IH]; [done|].
  rewrite !filter_cons. repeat case_decide; simpl; try lia.
  exfalso. auto.
Qed.

Lemma missing_app U kb l : (missing U (kb ++ l) ≤ missing U kb)%nat.
Proof.
  unfold missing. apply length_filter_impl. intros X [? Hn]. split; [done|].
  intros Hin. apply Hn. rewrite fmap_app. apply elem_of_app. by left.
Qed.

Lemma mentioned_prune kb : mentioned (prune kb) = mentioned kb.
Proof.
  apply set_eq. intros c. rewrite !elem_of_mentioned. split.
  - intros (s & [? _]%elem_of_prune & ?). eauto.
  - intros (s & ? & ?). exists s. split; [|done].
    apply elem_of_prune. split; [done|]. set_solver.
Qed.

Lemma all_known_safes_mentioned kb : all_known_safes kb ⊆ mentioned kb.
Proof.
  intros c (s & ? & Hc)%elem_of_all_known_safes. apply elem_of_mentioned.
  exists s. split; [done|]. by apply known_safes_subseteq.
Qed.

Lemma all_known_mines_mentioned kb : all_known_mines kb ⊆ mentioned kb.
Proof.
  intros c (s & ? & Hc)%elem_of_all_known_mines. apply elem_of_mentioned.
  exists s. split; [done|]. by apply known_mines_subseteq.
Qed.

Lemma mark_known_changed ai :
  (mark_known ai).2 = true →
  mentioned (knowledge (mark_known ai).1) ⊂ mentioned (knowledge ai).
Proof.
  rewrite mark_known_spec. simpl. intros Hch%bool_decide_eq_true.
  set (S := all_known_safes (knowledge ai)) in *.
  set (M := all_known_mines (knowledge ai)) in *.
  assert (mentioned
            ((λ s, foldl Sentence.mark_mine
                     (foldl Sentence.mark_safe s (elements S)) (elements M))
               <$> knowledge ai) ⊆ mentioned (knowledge ai) ∖ (S ∪ M)) as Hsub.
  { intros c (s' & (s & -> & Hs)%list_elem_of_fmap & Hc)%elem_of_mentioned.
    rewrite cells_foldl_mark_mine, cells_foldl_mark_safe,
      !list_to_set_elements_L in Hc.
    apply elem_of_difference. split; [|set_solver].
    apply elem_of_mentioned. exists s. set_solver. }
  pose proof (all_known_safes_mentioned (knowledge ai)).
  pose proof (all_known_mines_mentioned (knowledge ai)).
  assert (∃ c, c ∈ S ∪ M) as [c Hc].
  { destruct Hch as [Hne|Hne]; apply set_choose_L in Hne as [c ?];
      exists c; set_solver. }
  split; [set_solver|]. intros Hrev.
  assert (c ∈ mentioned (knowledge ai)) as Hin by set_solver.
  apply Hrev, Hsub in Hin. set_solver.
Qed.

Lemma mark_known_unchanged ai :
  (mark_known ai).2 = false → mark_known ai = (ai, false).
Proof.
  rewrite mark_known_spec. simpl. intros Hch%bool_decide_eq_false.
  assert (all_known_safes (knowledge ai) = ∅) as -> .
  { destruct (decide (all_known_safes (knowledge ai) = ∅)); [done|tauto]. }
  assert (all_known_mines (knowledge ai) = ∅) as -> .
  { destruct (decide (all_known_mines (knowledge ai) = ∅)); [done|tauto]. }
  rewrite bool_decide_eq_false_2 by tauto.
  rewrite elements_empty, !(left_id_L ∅ (∪)). simpl.
  rewrite list_fmap_id. by destruct ai.
Qed.

(** What a pass that reports no change has done: nothing was marked,
    nothing was appended; only sentences without cells were dropped. *)
Lemma pass_unchanged fuel ai ai' :
  pass fuel ai = Ret (ai', false) →
  ai' = mkAI (height ai) (width ai) (moves_made ai) (mines ai) (safes ai)
             (prune (knowledge ai)) ∧
  all_known_safes (knowledge ai) = ∅ ∧ all_known_mines (knowledge ai) = ∅ ∧
  subset_loop fuel 0 0 (prune (knowledge ai)) false
    = Ret (prune (knowledge ai), false).
Proof.
  rewrite pass_unfold. intros Hr.
  apply bind_Ret_inv in Hr as ([kb' ch'] & Hl & Hr).
  simpl in Hr. injection Hr as <- ->.
  destruct (subset_loop_appends _ _ _ _ _ _ _ Hl) as (added & -> & _ & _ & Hch).
  symmetry in Hch. apply orb_false_iff in Hch as [Hmk Hadd].
  apply bool_decide_eq_false in Hadd.
  assert (added = []) as -> by (destruct added; [done|exfalso; by apply Hadd]).
  rewrite app_nil_r in *.
  pose proof (mark_known_unchanged ai Hmk) as Heq.
  rewrite mark_known_spec in Hmk. simpl in Hmk.
  apply bool_decide_eq_false in Hmk.
  rewrite Heq in *. simpl in *.
  split_and!; [done| | |done].
  - destruct (decide (all_known_safes (knowledge ai) = ∅)); [done|tauto].
  - destruct (decide (all_known_mines (knowledge ai) = ∅)); [done|tauto].
Qed.

(** Such a pass leaves a state on which a further pass does nothing at
    all. *)
Lemma pass_stable fuel ai ai' :
  pass fuel ai = Ret (ai', false) → pass fuel ai' = Ret (ai', false).
Proof.
  intros (-> & HS & HM & Hl)%pass_unchanged.
  set (ai' := mkAI _ _ _ _ _ _).
  assert (mark_known ai' = (ai', false)) as Hmk.
  { apply mark_known_unchanged. rewrite mark_known_spec. simpl.
    apply bool_decide_eq_false_2. intros [Hne|Hne]; apply Hne.
    - apply set_eq. intros c. rewrite elem_of_all_known_safes.
      split; [|set_solver]. intros (s & [Hs _]%elem_of_prune & Hc).
      rewrite <- HS. apply elem_of_all_known_safes. eauto.
    - apply set_eq. intros c. rewrite elem_of_all_known_mines.
      split; [|set_solver]. intros (s & [Hs _]%elem_of_prune & Hc).
      rewrite <- HM. apply elem_of_all_known_mines. eauto. }
  rewrite pass_unfold, Hmk. simpl. rewrite prune_idemp, Hl. done.
Qed.

(** The state [infer] returns is a fixed point of the pass. *)
Lemma infer_fixed_point fuel ai ai' :
  infer fuel ai = Ret ai' → pass fuel ai' = Ret (ai', false).
Proof.
  revert ai. induction fuel as [|fuel IH]; intros ai Hr; [done|].
  rewrite infer_unfold in Hr.
  apply bind_Ret_inv in Hr as ([ai1 ch] & Hp & Hr).
  apply (pass_mono fuel); [|lia].
  destruct ch; [by eapply IH|].
  injection Hr as <-. by eapply pass_stable.
Qed.

(** On a state that agrees with a board the inference loop comes to an
    end. *)
Lemma infer_terminates b ai :
  consistent b ai → ∃ fuel ai', infer fuel ai = Ret ai'.
Proof.
  remember (size (mentioned (knowledge ai))) as n eqn:Hn.
  revert ai Hn. induction n as [n IHn] using lt_wf_ind. intros ai Hn.
  remember (missing (mentioned (knowledge ai)) (knowledge ai)) as m eqn:Hm.
  revert ai Hn Hm. induction m as [m IHm] using lt_wf_ind.
  intros ai Hn Hm Hc.
  pose proof (mark_known_consistent b ai Hc) as Hc1.
  set (kb1 := prune (knowledge (mark_known ai).1)).
  assert (Forall (holds (b_mines b)) kb1) as Hk1.
  { destruct Hc1 as (_ & _ & _ & _ & Hk). rewrite Forall_forall in Hk |- *.
    intros s [? _]%elem_of_prune. auto. }
  destruct (subset_loop_terminates (b_mines b) (mentioned kb1) kb1 0 0
              (mark_known ai).2 Hk1) as (f1 & [kb2 ch2] & Hl); [done|].
  assert (∃ ai2, pass f1 ai = Ret (ai2, ch2) ∧ knowledge ai2 = kb2)
    as (ai2 & Hp & Hkb2).
  { eexists. rewrite pass_unfold. fold kb1. rewrite Hl. simpl. done. }
  destruct ch2.
  2:{ exists (S f1), ai2. by rewrite infer_unfold, Hp. }
  assert (∃ f2 ai', infer f2 ai2 = Ret ai') as (f2 & ai' & Hi).
  { pose proof (pass_consistent _ _ _ _ _ Hc Hp) as Hc2.
    pose proof (subset_loop_mentioned _ _ _ _ _ _ _ Hl) as Hment.
    destruct (subset_loop_appends _ _ _ _ _ _ _ Hl)
      as (added & Hadd & _ & Hnew & Hch).
    destruct (mark_known ai).2 eqn:Hmk.
    - (* cells were marked: fewer cells are mentioned *)
      apply (IHn (size (mentioned (knowledge ai2)))); [|done|done].
      rewrite Hkb2, Hment. unfold kb1. rewrite mentioned_prune. subst n.
      by apply subset_size, mark_known_changed.
    - (* nothing was marked: a sentence with new cells was appended *)
      pose proof (mark_known_unchanged ai Hmk) as Heq.
      assert (kb1 = prune (knowledge ai)) as Hkb1 by (unfold kb1; by rewrite Heq).
      assert (mentioned (knowledge ai2) = mentioned (knowledge ai)) as HU.
      { by rewrite Hkb2, Hment, Hkb1, mentioned_prune. }
      apply (IHm (missing (mentioned (knowledge ai2)) (knowledge ai2)));
        [|by rewrite HU|done|done].
      rewrite HU, Hkb2. subst m.
      rewrite <- (missing_prune _ (knowledge ai)), <- Hkb1.
      simpl in Hch. symmetry in Hch. apply bool_decide_eq_true in Hch.
      destruct added as [|d rest]; [done|].
      rewrite Hadd. change (d :: rest) with ([d] ++ rest). rewrite app_assoc.
      eapply Nat.le_lt_trans; [apply missing_app|].
      destruct (Hnew d) as (Hfresh & s1 & s2 & Hs1 & Hs2 & Hd); [by left|].
      assert (Forall (holds (b_mines b)) kb2) as Hk2
        by (eapply subset_loop_holds; eauto).
      rewrite Forall_forall in Hk1, Hk2.
      destruct (derived_cells _ _ _ Hd) as [Hne Hsub].
      apply missing_append; [|done|].
      + rewrite <- HU, Hkb2. intros c Hcd. apply elem_of_mentioned.
        destruct Hsub; [exists s1|exists s2]; set_solver.
      + intros (s & Hcs & Hs)%list_elem_of_fmap. apply Hfresh.
        rewrite (holds_same_cells (b_mines b) d s); auto.
        eapply holds_derived; [| |exact Hd]; auto. }
  exists (S (f1 `max` f2)), ai'.
  rewrite infer_unfold, (pass_mono _ (f1 `max` f2) _ _ Hp) by lia. simpl.
  apply (infer_mono f2); [done|lia].
Qed.

End fixed_point.

(** ** Reports that contradict each other *)

Section conflict.
Implicit Types (s d : Sentence) (c : Cell) (kb : list Sentence).
Implicit Types (X Y : gset Cell) (ai : MinesweeperAI).

Lemma counts_run_out kb X (c d : Z) :
  d ≠ 0 → ∃ n : nat, mkSentence X (c + Z.of_nat n * d) ∉ kb.
Proof.
  intros Hd.
  cut (∃ N : nat, ∀ n : nat, (N ≤ n)%nat → mkSentence X (c + Z.of_nat n * d) ∉ kb).
  { intros [N HN]. exists N. by apply HN. }
  induction kb as [|s kb [N IH]].
  - exists 0%nat. intros n _. apply not_elem_of_nil.
  - exists (N `max` S (Z.to_nat (Z.abs (count s - c))))%nat.
    intros n Hn [Heq|Hin]%elem_of_cons.
    + assert (count s = c + Z.of_nat n * d) as Hc by (by rewrite <- Heq).
      nia.
    + apply (IH n); [lia|done].
Qed.

(** Two sentences on the same cells with different counts and a sentence
    on some of these cells: no finite list around them contains all the
    sentences derived from its pairs. *)
Lemma conflict_not_closed kb X Y (a b c : Z) :
  X ⊂ Y → X ≠ ∅ → a ≠ b →
  mkSentence Y a ∈ kb → mkSentence Y b ∈ kb → mkSentence X c ∈ kb →
  ¬ closed kb.
Proof.
  intros HXY HX Hab Ha Hb Hc Hcl.
  assert (Y ∖ X ⊂ Y) as HYX.
  { apply set_choose_L in HX as [x Hx]. destruct HXY as [HXY _].
    split; [set_solver|]. intros Hrev. specialize (Hrev x). set_solver. }
  assert (Y ∖ (Y ∖ X) = X) as Hback.
  { destruct HXY as [HXY _]. apply set_eq. intros x.
    rewrite !elem_of_difference. specialize (HXY x).
    destruct (decide (x ∈ X)); naive_solver. }
  assert (∀ n : nat, mkSentence X (c + Z.of_nat n * (b - a)) ∈ kb) as Hall.
  { induction n as [|n IH].
    - by rewrite Z.mul_0_l, Z.add_0_r.
    - set (s := mkSentence X (c + Z.of_nat n * (b - a))) in *.
      assert (difference (mkSentence Y a) s ∈ kb) as H1.
      { apply (Hcl s (mkSentence Y a)); [done..|].
        unfold derived. simpl. by rewrite decide_True. }
      assert (difference (mkSentence Y b) (difference (mkSentence Y a) s) ∈ kb)
        as H2.
      { apply (Hcl (difference (mkSentence Y a) s) (mkSentence Y b)); [done..|].
        unfold derived. simpl. by rewrite decide_True. }
      unfold difference in H2. simpl in H2. rewrite Hback in H2.
      replace (c + Z.of_nat (S n) * (b - a))
        with (b - (a - (c + Z.of_nat n * (b - a)))) by lia.
      done. }
  destruct (counts_run_out kb X c (b - a)) as [n Hn]; [lia|].
  apply Hn, Hall.
Qed.

(** On such a list the nested loops never come to an end. *)
Lemma subset_loop_conflict fuel kb ch X Y (a b c : Z) :
  X ⊂ Y → X ≠ ∅ → a ≠ b →
  mkSentence Y a ∈ kb → mkSentence Y b ∈ kb → mkSentence X c ∈ kb →
  subset_loop fuel 0 0 kb ch = OutOfFuel.
Proof.
  intros HXY HX Hab Ha Hb Hc.
  destruct (subset_loop fuel 0 0 kb ch) as [[kb' ch']|e|] eqn:Hl; [| |done].
  - exfalso.
    pose proof (subset_loop_closed _ _ _ _ _ Hl) as Hcl.
    destruct (subset_loop_appends _ _ _ _ _ _ _ Hl) as (added & -> & _).
    apply (conflict_not_closed (kb ++ added) X Y a b c);
      [done|done|done| | | |exact Hcl]; apply elem_of_app; by left.
  - by apply subset_loop_no_raise in Hl.
Qed.

Lemma infer_conflict fuel ai X Y (a b c : Z) :
  mark_known ai = (ai, false) →
  X ⊂ Y → X ≠ ∅ → a ≠ b →
  mkSentence Y a ∈ knowledge ai → mkSentence Y b ∈ knowledge ai →
  mkSentence X c ∈ knowledge ai →
  infer fuel ai = OutOfFuel.
Proof.
  intros Hmk HXY HX Hab Ha Hb Hc. destruct fuel as [|fuel]; [done|].
  rewrite infer_unfold, pass_unfold, Hmk. simpl.
  assert (Y ≠ ∅) as HY.
  { intros ->. destruct HXY as [HXY _]. apply HX. set_solver. }
  rewrite (subset_loop_conflict fuel _ _ X Y a b c); try done;
    apply elem_of_prune; done.
Qed.

End conflict.

Section random_move.
Implicit Types (ai : MinesweeperAI) (rng : nat → nat).

Lemma randint_range (hi : Z) (r : nat) :
  0 ≤ hi → ∃ v, randint 0 hi r = Ret v ∧ 0 ≤ v ≤ hi.
Proof.
  intros Hhi. unfold randint.
  destruct (Z.ltb_spec hi 0); [lia|].
  eexists. split; [done|].
  pose proof (Z.mod_pos_bound (Z.of_nat r) (hi - 0 + 1)). lia.
Qed.

Lemma randint_inv (lo hi : Z) (r : nat) v :
  randint lo hi r = Ret v → lo ≤ v ≤ hi.
Proof.
  unfold randint. destruct (Z.ltb_spec hi lo); [done|].
  intros [= <-].
  pose proof (Z.mod_pos_bound (Z.of_nat r) (hi - lo + 1)). lia.
Qed.

(** When [make_random_move] returns, the cell is on the board, not a
    known mine and not played. *)
Lemma make_random_move_eligible fuel rng n ai cell :
  make_random_move fuel rng n ai = Ret cell →
  in_bounds (height ai) (width ai) cell = true ∧
  (cell ∉ mines ai) ∧ cell ∉ moves_made ai.
Proof.
  revert n. induction fuel as [|fuel IH]; intros n; [done|]. simpl.
  intros Hr.
  apply bind_Ret_inv in Hr as (i & Hi & Hr).
  apply bind_Ret_inv in Hr as (j & Hj & Hr).
  apply randint_inv in Hi, Hj.
  destruct (decide ((i, j) ∈ mines ai)) as [Hm|Hm].
  { rewrite (bool_decide_eq_true_2 _ Hm) in Hr. simpl in Hr. eauto. }
  rewrite (bool_decide_eq_false_2 _ Hm) in Hr.
  destruct (decide ((i, j) ∈ moves_made ai)) as [Hp|Hp].
  { rewrite (bool_decide_eq_true_2 _ Hp) in Hr. simpl in Hr. eauto. }
  rewrite (bool_decide_eq_false_2 _ Hp) in Hr. simpl in Hr.
  injection Hr as <-. split_and!; [|done..].
  unfold in_bounds. simpl.
  repeat (apply andb_true_intro; split); (apply Z.leb_le || apply Z.ltb_lt); lia.
Qed.

Lemma make_safe_move_first (order : list Cell) ai c :
  make_safe_move order ai = Some c ↔
  ∃ pre post, order = pre ++ c :: post ∧ (c ∉ moves_made ai) ∧
              ∀ x, x ∈ pre → x ∈ moves_made ai.
Proof.
  induction order as [|x order IH]; simpl.
  - split; [done|]. intros (pre & post & Heq & _). by destruct pre.
  - case_bool_decide as Hx.
    + split.
      * intros [= ->]. exists [], order. split_and!; [done|done|].
        intros y Hy. by apply elem_of_nil in Hy.
      * intros (pre & post & Heq & Hc & Hpre). destruct pre as [|y pre].
        -- simpl in Heq. by injection Heq as Hxc _; subst.
        -- simpl in Heq. injection Heq as Hxy _. subst y.
           destruct Hx. apply Hpre. left.
    + rewrite IH. split.
      * intros (pre & post & Heq & Hc & Hpre). subst order.
        exists (x :: pre), post. split_and!; [done|done|].
        intros y [Hy|Hy]%elem_of_cons; [by subst y|auto].
      * intros (pre & post & Heq & Hc & Hpre). destruct pre as [|y pre].
        -- simpl in Heq. injection Heq as Hxc _. by subst x.
        -- simpl in Heq. injection Heq as Hxy Hrest. subst y order.
           exists pre, post. split_and!; [done|done|].
           intros z Hz. apply Hpre. by right.
Qed.

Lemma make_safe_move_all_played (order : list Cell) ai :
  make_safe_move order ai = None ↔ ∀ c, c ∈ order → c ∈ moves_made ai.
Proof.
  induction order as [|x order IH]; simpl.
  - split; [|done]. intros _ c Hc. by apply elem_of_nil in Hc.
  - case_bool_decide as Hx.
    + split; [done|]. intros Hall. destruct Hx. apply Hall. left.
    + rewrite IH. split.
      * intros Hall c [Hc|Hc]%elem_of_cons; [by subst c|auto].
      * intros Hall c Hc. apply Hall. by right.
Qed.

(** The sibling [make_safe_move] gives up when it has no cell to offer. *)
Lemma make_safe_move_None (order : list Cell) ai :
  iterates order (safes ai) →
  make_safe_move order ai = None ↔ safes ai ⊆ moves_made ai.
Proof.
  intros [_ Hset]. rewrite make_safe_move_all_played, <- Hset. split.
  - intros Hall c Hc%elem_of_list_to_set. auto.
  - intros Hsub c Hc. apply Hsub. by apply elem_of_list_to_set.
Qed.

End random_move.

(** * The claims about [add_knowledge] *)

(** On a 2 by 2 board, the report "2 mines around (0, 0)" followed by the
    report "no mine around (0, 1)" leaves the cells (1, 0) and (1, 1) both
    among the safes and among the mines, although the sets were disjoint
    before the second call. *)
Lemma safes_mines_overlap :
  ∃ ai1 ai2,
    add_knowledge 20 (init 2 2) (0, 0) 2 = Ret ai1 ∧
    safes ai1 ## mines ai1 ∧
    add_knowledge 20 ai1 (0, 1) 0 = Ret ai2 ∧
    ¬ safes ai2 ## mines ai2.
Proof.
  eexists _, _. split_and!.
  - vm_compute. reflexivity.
  - compute_done.
  - vm_compute. reflexivity.
  - compute_done.
Qed.

(** C1 (as amended): when the state agrees with a board and the observation
    is one this board makes (the cell is no mine, the count is
    [nearby_mines]), [add_knowledge] completes, and whenever it completes
    the known safes and the known mines are disjoint; the state still agrees
    with the board. *)
Theorem safes_mines_disjoint (b : Minesweeper) (ai : MinesweeperAI)
    (cell : Cell) (k : Z) :
  consistent b ai → truthful b cell k →
  (∃ fuel ai', add_knowledge fuel ai cell k = Ret ai') ∧
  (∀ fuel ai', add_knowledge fuel ai cell k = Ret ai' →
     safes ai' ∩ mines ai' = ∅ ∧ consistent b ai').
Proof.
  intros Hc Ht. split.
  - apply (infer_terminates b). by apply observe_consistent.
  - intros fuel ai' Hr.
    pose proof (add_knowledge_consistent _ _ _ _ _ _ Hc Ht Hr) as Hc'.
    split; [|done]. apply consistent_disjoint in Hc'. set_solver.
Qed.

Lemma safes_mines_disjoint_witness :
  consistent board_1x3 (init 1 3) ∧ truthful board_1x3 (0, 0) 0 ∧
  (∃ fuel ai', add_knowledge fuel (init 1 3) (0, 0) 0 = Ret ai') ∧
  (∀ fuel ai', add_knowledge fuel (init 1 3) (0, 0) 0 = Ret ai' →
     safes ai' ∩ mines ai' = ∅ ∧ consistent board_1x3 ai').
Proof.
  assert (consistent board_1x3 (init 1 3)) as Hc.
  { unfold consistent. simpl. split_and!; [done|done|set_solver|set_solver|].
    constructor. }
  assert (truthful board_1x3 (0, 0) 0) as Ht.
  { split; vm_compute; reflexivity. }
  exact (conj Hc (conj Ht
           (safes_mines_disjoint board_1x3 (init 1 3) (0, 0) 0 Hc Ht))).
Defined.



(** After the cell (0, 1) of a 2 by 3 board has been reported twice, with
    the counts 1 and 2, the report "1 mine around (0, 0)" starts an inference
    loop that never ends: the nested loops keep appending sentences on the
    cells (1, 0) and (1, 1) with ever new counts. *)
Lemma inference_diverges :
  replay 20 (init 2 3) [((0, 1), 1); ((0, 1), 2)] = Ret told_twice ∧
  ∀ fuel, add_knowledge fuel told_twice (0, 0) 1 = OutOfFuel.
Proof.
  split; [compute_done|]. intros fuel. unfold add_knowledge.
  apply (infer_conflict fuel _ {[(1, 0); (1, 1)]}
           {[(0, 2); (1, 0); (1, 1); (1, 2)]} 1 2 1); compute_done.
Qed.

(** C7 (as amended): when the state agrees with a board and the observation
    is one this board makes, [add_knowledge] returns after finitely many
    passes, whatever fuel beyond that it is given.  The loop ends after a
    pass that marked no cell and appended no sentence, and the state it
    returns is a fixed point: a further pass marks nothing, prunes nothing
    and appends nothing. *)
Theorem inference_terminates (b : Minesweeper) (ai : MinesweeperAI)
    (cell : Cell) (k : Z) :
  consistent b ai → truthful b cell k →
  ∃ fuel ai',
    (∀ fuel', (fuel ≤ fuel')%nat → add_knowledge fuel' ai cell k = Ret ai') ∧
    mark_known ai' = (ai', false) ∧
    prune (knowledge ai') = knowledge ai' ∧
    pass fuel ai' = Ret (ai', false).
Proof.
  intros Hc Ht.
  destruct (infer_terminates b (observe ai cell k)) as (fuel & ai' & Hr).
  { by apply observe_consistent. }
  exists fuel, ai'.
  pose proof (infer_fixed_point _ _ _ Hr) as Hfix.
  destruct (pass_unchanged _ _ _ Hfix) as (Heq & HS & HM & _).
  split_and!; [|..|done].
  - intros fuel' Hle. by apply (infer_mono fuel).
  - apply mark_known_unchanged. rewrite mark_known_spec. simpl.
    rewrite HS, HM. apply bool_decide_eq_false_2. tauto.
  - by rewrite Heq at 2.
Qed.

Lemma inference_terminates_witness :
  consistent board_1x3 (init 1 3) ∧ truthful board_1x3 (0, 0) 0 ∧
  ∃ fuel ai',
    (∀ fuel', (fuel ≤ fuel')%nat →
       add_knowledge fuel' (init 1 3) (0, 0) 0 = Ret ai') ∧
    mark_known ai' = (ai', false) ∧
    prune (knowledge ai') = knowledge ai' ∧
    pass fuel ai' = Ret (ai', false).
Proof.
  assert (consistent board_1x3 (init 1 3)) as Hc.
  { unfold consistent. simpl. split_and!; [done|done|set_solver|set_solver|].
    constructor. }
  assert (truthful board_1x3 (0, 0) 0) as Ht.
  { split; vm_compute; reflexivity. }
  exact (conj Hc (conj Ht
           (inference_terminates board_1x3 (init 1 3) (0, 0) 0 Hc Ht))).
Defined.

(** The last pass of the loop may prune all the same: on a board of one
    cell, [add_knowledge((0, 0), 0)] appends a sentence without cells, and the
    one pass of the loop removes it and reports no change. *)
Lemma last_pass_prunes :
  knowledge (observe (init 1 1) (0, 0) 0) = [mkSentence ∅ 0] ∧
  pass 2 (observe (init 1 1) (0, 0) 0)
  = Ret (mkAI 1 1 {[(0, 0)]} ∅ {[(0, 0)]} [], false) ∧
  add_knowledge 3 (init 1 1) (0, 0) 0
  = Ret (mkAI 1 1 {[(0, 0)]} ∅ {[(0, 0)]} []).
Proof.
  split_and!; compute_done.
Qed.

(** On a 3 by 3 board, the reports "3 mines around (0, 1)" and "1 mine
    around (1, 1)" make the loop subtract the first sentence from the second:
    the call returns as usual, and the knowledge base it leaves contains the
    difference, a sentence with count -2. *)
Lemma negative_count_appended :
  ∃ ai1 ai2,
    add_knowledge 40 (init 3 3) (0, 1) 3 = Ret ai1 ∧
    add_knowledge 40 ai1 (1, 1) 1 = Ret ai2 ∧
    knowledge ai2 =
      [mkSentence {[(0, 0); (0, 2); (1, 0); (1, 2)]} 3;
       mkSentence {[(0, 0); (0, 2); (1, 0); (1, 2); (2, 0); (2, 1); (2, 2)]} 1;
       mkSentence {[(2, 0); (2, 1); (2, 2)]} (-2)].
Proof.
  eexists _, _. split_and!.
  - vm_compute. reflexivity.
  - vm_compute. reflexivity.
  - compute_done.
Qed.

(** C9 (as amended): no call of [add_knowledge] raises an exception, for
    whatever reason; when the subtraction of nested sentences gives a
    negative count, the body of the loop appends the difference like any
    other new sentence, unless an equal sentence is present. *)
Theorem negative_count_kept (kb : list Sentence) (changed : bool)
    (small big : Sentence) :
  cells small ⊂ cells big → count big - count small < 0 →
  (∀ fuel ai cell k e, add_knowledge fuel ai cell k ≠ Raise e) ∧
  pair_body kb changed small big = pair_body kb changed big small ∧
  (difference big small ∉ kb →
   pair_body kb changed small big = Ret (kb ++ [difference big small], true)) ∧
  (difference big small ∈ kb →
   pair_body kb changed small big = Ret (kb, changed)).
Proof.
  intros Hsub Hneg. split_and!.
  - intros fuel ai cell k e. apply infer_no_raise.
  - by rewrite !pair_body_spec, derived_comm.
  - intros Hnew. rewrite pair_body_spec. unfold derived.
    rewrite decide_True by done. simpl. by rewrite decide_False.
  - intros Hin. rewrite pair_body_spec. unfold derived.
    rewrite decide_True by done. simpl. by rewrite decide_True.
Qed.

Lemma negative_count_kept_witness :
  pair_body [mkSentence {[(0, 0)]} 2; mkSentence {[(0, 0); (0, 1)]} 1] false
            (mkSentence {[(0, 0)]} 2) (mkSentence {[(0, 0); (0, 1)]} 1)
  = Ret ([mkSentence {[(0, 0)]} 2; mkSentence {[(0, 0); (0, 1)]} 1;
          mkSentence {[(0, 1)]} (-1)], true).
Proof.
  destruct (negative_count_kept
              [mkSentence {[(0, 0)]} 2; mkSentence {[(0, 0); (0, 1)]} 1] false
              (mkSentence {[(0, 0)]} 2) (mkSentence {[(0, 0); (0, 1)]} 1))
    as (_ & _ & Happ & _).
  - compute_done.
  - simpl. lia.
  - rewrite Happ by compute_done. compute_done.
Defined.

(** C8: when every cell of the board is a known mine or has been played,
    [make_random_move] never returns and raises nothing: whatever the random
    numbers and however many rounds are allowed, the loop is still running. *)
Theorem make_random_move_exhausted (ai : MinesweeperAI) (rng : nat → nat)
    (fuel n : nat) :
  0 < height ai → 0 < width ai →
  (∀ cell, in_bounds (height ai) (width ai) cell = true →
           cell ∈ mines ai ∨ cell ∈ moves_made ai) →
  make_random_move fuel rng n ai = OutOfFuel.
Proof.
  intros Hh Hw Hall. revert n.
  induction fuel as [|fuel IH]; intros n; [done|]. simpl.
  destruct (randint_range (height ai - 1) (rng n)) as (i & -> & Hi); [lia|].
  destruct (randint_range (width ai - 1) (rng (S n))) as (j & -> & Hj); [lia|].
  simpl.
  destruct (Hall (i, j)) as [Hm|Hp].
  - unfold in_bounds. simpl.
    repeat (apply andb_true_intro; split); (apply Z.leb_le || apply Z.ltb_lt); lia.
  - rewrite (bool_decide_eq_true_2 _ Hm). simpl. apply IH.
  - rewrite (bool_decide_eq_true_2 _ Hp), orb_true_r. simpl. apply IH.
Qed.

Lemma make_random_move_exhausted_witness :
  add_knowledge 5 (init 1 1) (0, 0) 0 = Ret played_out ∧
  ∀ fuel, make_random_move fuel (λ _, 0%nat) 0 played_out = OutOfFuel.
Proof.
  split; [compute_done|]. intros fuel.
  apply (make_random_move_exhausted played_out (λ _, 0%nat) fuel 0).
  - simpl. lia.
  - simpl. lia.
  - intros [i j] Hb. right. unfold in_bounds in Hb. simpl in Hb.
    apply andb_prop in Hb as [Hb Hj2]. apply andb_prop in Hb as [Hb Hj1].
    apply andb_prop in Hb as [Hi1 Hi2].
    apply Z.leb_le in Hi1, Hj1. apply Z.ltb_lt in Hi2, Hj2.
    assert (i = 0) as -> by lia. assert (j = 0) as -> by lia.
    simpl. set_solver.
Defined.

(** * Further properties of the code *)

(** ** Sentences *)

(** X1: what a sentence that holds on a board gives away is right: every
    cell of [known_safes] is no mine and every cell of [known_mines] is a
    mine; no cell is in both answers. *)
Theorem known_cells_sound (B : gset Cell) (s : Sentence) :
  holds B s →
  Sentence.known_safes s ## B ∧
  Sentence.known_mines s ⊆ B ∧
  Sentence.known_safes s ## Sentence.known_mines s.
Proof.
  intros Hs. split_and!.
  - intros c Hc HB. by eapply known_safes_sound.
  - intros c Hc. by eapply known_mines_sound.
  - intros c Hc Hm. eapply known_safes_sound; [exact Hs|exact Hc|].
    by eapply known_mines_sound.
Qed.

Lemma known_cells_sound_witness :
  holds {[(0, 2)]} (mkSentence {[(0, 2)]} 1) ∧
  Sentence.known_mines (mkSentence {[(0, 2)]} 1) ⊆ {[(0, 2)]}.
Proof.
  assert (holds {[(0, 2)]} (mkSentence {[(0, 2)]} 1)) as Hs by compute_done.
  split; [done|].
  apply (known_cells_sound {[(0, 2)]} (mkSentence {[(0, 2)]} 1) Hs).
Defined.

Section more_marking.
Implicit Types (s : Sentence) (c a b : Cell) (ai : MinesweeperAI).

Lemma sentence_eq s1 s2 : cells s1 = cells s2 → count s1 = count s2 → s1 = s2.
Proof. destruct s1, s2. simpl. by intros -> ->. Qed.

Lemma count_mark_mine s c :
  count (Sentence.mark_mine s c) =
  count s - (if decide (c ∈ cells s) then 1 else 0).
Proof. unfold Sentence.mark_mine. case_decide; simpl; lia. Qed.

Lemma sentence_mark_mine_comm s a b :
  Sentence.mark_mine (Sentence.mark_mine s a) b =
  Sentence.mark_mine (Sentence.mark_mine s b) a.
Proof.
  apply sentence_eq.
  - rewrite !cells_mark_mine. set_solver.
  - rewrite !count_mark_mine, !cells_mark_mine.
    destruct (decide (a = b)) as [->|Hne]; [done|].
    repeat case_decide; try lia; set_solver.
Qed.

Lemma sentence_mark_safe_comm s a b :
  Sentence.mark_safe (Sentence.mark_safe s a) b =
  Sentence.mark_safe (Sentence.mark_safe s b) a.
Proof.
  apply sentence_eq.
  - rewrite !cells_mark_safe. set_solver.
  - by rewrite !count_mark_safe.
Qed.

Lemma sentence_mark_mine_idemp s c :
  Sentence.mark_mine (Sentence.mark_mine s c) c = Sentence.mark_mine s c.
Proof. apply mark_mine_notin. rewrite cells_mark_mine. set_solver. Qed.

Lemma sentence_mark_safe_idemp s c :
  Sentence.mark_safe (Sentence.mark_safe s c) c = Sentence.mark_safe s c.
Proof. apply mark_safe_notin. rewrite cells_mark_safe. set_solver. Qed.

Lemma ai_mark_mine_comm ai a b :
  mark_mine (mark_mine ai a) b = mark_mine (mark_mine ai b) a.
Proof.
  unfold mark_mine. simpl. f_equal; [set_solver|].
  rewrite <- !list_fmap_compose. apply list_fmap_ext.
  intros _ s _. apply sentence_mark_mine_comm.
Qed.

Lemma ai_mark_safe_comm ai a b :
  mark_safe (mark_safe ai a) b = mark_safe (mark_safe ai b) a.
Proof.
  unfold mark_safe. simpl. f_equal; [set_solver|].
  rewrite <- !list_fmap_compose. apply list_fmap_ext.
  intros _ s _. apply sentence_mark_safe_comm.
Qed.

Lemma foldl_comm_permutation {A B} (f : A → B → A) (l l' : list B) :
  (∀ x y z, f (f x y) z = f (f x z) y) →
  l ≡ₚ l' → ∀ x, foldl f x l = foldl f x l'.
Proof.
  intros Hcomm Hperm. induction Hperm as [|y l l' _ IH|y z l|l l' l'' _ IH1 _ IH2];
    intros x; simpl.
  - done.
  - apply IH.
  - by rewrite Hcomm.
  - by rewrite IH1.
Qed.

Lemma count_foldl_mark_mine s (l : list Cell) :
  NoDup l →
  count (foldl Sentence.mark_mine s l) =
  count s - Z.of_nat (size (cells s ∩ list_to_set l)).
Proof.
  revert s. induction l as [|c l IH]; intros s Hnd; simpl.
  - replace (cells s ∩ ∅) with (∅ : gset Cell) by set_solver.
    rewrite size_empty. lia.
  - apply NoDup_cons in Hnd as [Hc Hnd].
    rewrite IH, count_mark_mine, cells_mark_mine by done.
    assert (c ∉ (list_to_set l : gset Cell)) as Hc' by (by rewrite elem_of_list_to_set).
    replace ((cells s ∖ {[c]}) ∩ list_to_set l)
      with (cells s ∩ list_to_set l) by set_solver.
    case_decide as Hin.
    + replace (cells s ∩ ({[c]} ∪ list_to_set l))
        with ({[c]} ∪ cells s ∩ list_to_set l) by set_solver.
      rewrite (size_union {[c]} (cells s ∩ list_to_set l)) by set_solver.
      rewrite size_singleton. lia.
    + replace (cells s ∩ ({[c]} ∪ list_to_set l))
        with (cells s ∩ list_to_set l) by set_solver.
      lia.
Qed.

End more_marking.

(** X2: marking keeps a true sentence true exactly when the cell is what it
    is said to be: [mark_mine] with a mine and [mark_safe] with a cell that
    is no mine keep the sentence true on the board; [mark_mine] with a cell
    of the sentence that is no mine, or [mark_safe] with a cell of the
    sentence that is a mine, makes it false. *)
Theorem marking_keeps_truth (B : gset Cell) (s : Sentence) (c : Cell) :
  holds B s →
  (c ∈ B → holds B (Sentence.mark_mine s c)) ∧
  (c ∉ B → holds B (Sentence.mark_safe s c)) ∧
  (c ∈ cells s → c ∉ B → ¬ holds B (Sentence.mark_mine s c)) ∧
  (c ∈ cells s → c ∈ B → ¬ holds B (Sentence.mark_safe s c)).
Proof.
  intros Hs. split_and!.
  - by apply holds_mark_mine.
  - by apply holds_mark_safe.
  - intros Hin HB. unfold holds in *. rewrite mark_mine_in by done. simpl.
    replace ((cells s ∖ {[c]}) ∩ B) with (cells s ∩ B) by set_solver. lia.
  - intros Hin HB. unfold holds in *. rewrite mark_safe_in by done. simpl.
    rewrite (size_remove_elem (cells s ∩ B) c) in Hs by set_solver.
    replace ((cells s ∖ {[c]}) ∩ B) with ((cells s ∩ B) ∖ {[c]}) by set_solver.
    lia.
Qed.

Lemma marking_keeps_truth_witness :
  holds {[(0, 2)]} (mkSentence {[(0, 1); (0, 2)]} 1) ∧
  holds {[(0, 2)]} (Sentence.mark_mine (mkSentence {[(0, 1); (0, 2)]} 1) (0, 2)) ∧
  holds {[(0, 2)]} (Sentence.mark_safe (mkSentence {[(0, 1); (0, 2)]} 1) (0, 1)).
Proof.
  assert (holds {[(0, 2)]} (mkSentence {[(0, 1); (0, 2)]} 1)) as Hs by compute_done.
  split; [done|].
  destruct (marking_keeps_truth {[(0, 2)]} (mkSentence {[(0, 1); (0, 2)]} 1)
              (0, 2) Hs) as (Hm & _).
  destruct (marking_keeps_truth {[(0, 2)]} (mkSentence {[(0, 1); (0, 2)]} 1)
              (0, 1) Hs) as (_ & Hf & _).
  split; [apply Hm; compute_done|apply Hf; compute_done].
Defined.

(** X3: the order in which [mark_known] goes through the cells of a Python
    set does not matter: marking the cells of two lists that are
    permutations of each other as safe, or as mines, gives the same state;
    marking a duplicate-free list of mines lowers the count of a sentence by
    the number of these cells it contained. *)
Theorem marking_order_irrelevant (ai : MinesweeperAI) (l l' : list Cell) :
  l ≡ₚ l' →
  foldl mark_safe ai l = foldl mark_safe ai l' ∧
  foldl mark_mine ai l = foldl mark_mine ai l' ∧
  (NoDup l → ∀ s,
     s ∈ knowledge ai →
     mkSentence (cells s ∖ list_to_set l)
                (count s - Z.of_nat (size (cells s ∩ list_to_set l)))
       ∈ knowledge (foldl mark_mine ai l)).
Proof.
  intros Hperm. split_and!.
  - apply foldl_comm_permutation; [apply ai_mark_safe_comm|done].
  - apply foldl_comm_permutation; [apply ai_mark_mine_comm|done].
  - intros Hnd s Hs. rewrite foldl_mark_mine. simpl.
    apply list_elem_of_fmap. exists s. split; [|done].
    apply sentence_eq; simpl.
    + by rewrite cells_foldl_mark_mine.
    + by rewrite count_foldl_mark_mine.
Qed.

Lemma marking_order_irrelevant_witness :
  foldl mark_mine told_twice [(0, 0); (1, 1)] =
  foldl mark_mine told_twice [(1, 1); (0, 0)].
Proof.
  apply (marking_order_irrelevant told_twice [(0, 0); (1, 1)] [(1, 1); (0, 0)]).
  apply perm_swap.
Defined.

(** X4: [mark_mine] and [mark_safe] of the AI record the cell and take it out
    of every sentence; doing it a second time changes nothing. *)
Theorem ai_marking_idempotent (ai : MinesweeperAI) (c : Cell) :
  (c ∈ mines (mark_mine ai c) ∧
   (∀ s, s ∈ knowledge (mark_mine ai c) → c ∉ cells s) ∧
   mark_mine (mark_mine ai c) c = mark_mine ai c) ∧
  (c ∈ safes (mark_safe ai c) ∧
   (∀ s, s ∈ knowledge (mark_safe ai c) → c ∉ cells s) ∧
   mark_safe (mark_safe ai c) c = mark_safe ai c).
Proof.
  split; split_and!.
  - simpl. set_solver.
  - simpl. intros s' (s & -> & _)%list_elem_of_fmap.
    rewrite cells_mark_mine. set_solver.
  - unfold mark_mine. simpl. f_equal; [set_solver|].
    rewrite <- list_fmap_compose. apply list_fmap_ext.
    intros _ s _. apply sentence_mark_mine_idemp.
  - simpl. set_solver.
  - simpl. intros s' (s & -> & _)%list_elem_of_fmap.
    rewrite cells_mark_safe. set_solver.
  - unfold mark_safe. simpl. f_equal; [set_solver|].
    rewrite <- list_fmap_compose. apply list_fmap_ext.
    intros _ s _. apply sentence_mark_safe_idemp.
Qed.

Section more_subtraction.
Implicit Types (s : Sentence) (c : Cell) (X Y : gset Cell) (kb : list Sentence).

Lemma remove_each_missing X (l : list Cell) c :
  c ∈ l → c ∉ X → remove_each X l = Raise KeyError.
Proof.
  revert X. induction l as [|c' l IH]; intros X Hin Hc; simpl.
  - by apply elem_of_nil in Hin.
  - unfold set_remove. case_decide as Hc'; [|done].
    rewrite bind_Ret. apply elem_of_cons in Hin as [->|Hin]; [done|].
    apply IH; [done|]. set_solver.
Qed.

Lemma forallb_false_elem {A} (p : A → bool) (l : list A) :
  forallb p l = false → ∃ x, x ∈ l ∧ p x = false.
Proof.
  induction l as [|x l IH]; simpl; [done|].
  destruct (p x) eqn:Hp; simpl.
  - intros (y & ? & ?)%IH. exists y. split; [by right|done].
  - intros _. exists x. split; [left|done].
Qed.

Lemma subtract_not_nested s1 s2 :
  is_subset s1 s2 = false → subtract s1 s2 = Raise KeyError.
Proof.
  unfold is_subset, subtract.
  destruct (size (cells s2) <? size (cells s1))%nat;
    intros (c & Hc & Hn%bool_decide_eq_false)%forallb_false_elem;
    by rewrite (remove_each_missing _ _ c).
Qed.

Lemma subtract_nested s1 s2 :
  is_subset s1 s2 = true →
  subtract s1 s2 =
  Ret (if (size (cells s2) <? size (cells s1))%nat
       then difference s1 s2 else difference s2 s1).
Proof.
  intros Hsub%is_subset_true. unfold subtract.
  destruct (Nat.ltb_spec (size (cells s2)) (size (cells s1))) as [Hlt|Hge].
  - rewrite decide_True in Hsub by done. by rewrite remove_each_elements.
  - rewrite decide_False in Hsub by lia. by rewrite remove_each_elements.
Qed.

Lemma prune_while_split fuel (pre post : list Sentence) :
  (length post < fuel)%nat →
  prune_while fuel (length pre) (pre ++ post) = Ret (pre ++ prune post).
Proof.
  revert fuel pre. induction post as [|s post IH]; intros fuel pre Hf;
    (destruct fuel as [|fuel]; [simpl in Hf; lia|]); simpl.
  - rewrite lookup_ge_None_2 by (rewrite length_app; simpl; lia). done.
  - rewrite list_lookup_middle by done.
    destruct (size (cells s) =? 0)%nat.
    + replace (delete (length pre) (pre ++ s :: post)) with (pre ++ post).
      * apply IH. simpl in Hf. lia.
      * by rewrite delete_middle.
    + replace (S (length pre)) with (length (pre ++ [s]))
        by (rewrite length_app; simpl; lia).
      rewrite (cons_middle s pre post), app_assoc, IH by (simpl in Hf; lia).
      by rewrite <- app_assoc.
Qed.

Lemma prune_filter kb : prune kb = filter (λ s, cells s ≠ ∅) kb.
Proof.
  induction kb as [|s kb IH]; simpl; [done|].
  rewrite filter_cons, IH.
  destruct (Nat.eqb_spec (size (cells s)) 0) as [Hz|Hz].
  - apply size_empty_iff, leibniz_equiv in Hz. by rewrite decide_False by tauto.
  - rewrite decide_True; [done|]. intros He. by rewrite He, size_empty in Hz.
Qed.

End more_subtraction.

(** X5: the test [is_subset] is what keeps [new_cells.remove] from failing:
    when it holds, the subtraction returns the difference of the larger and
    the smaller sentence; when it does not, the removal raises [KeyError]. *)
Theorem subtract_guarded (s1 s2 : Sentence) :
  (is_subset s1 s2 = true →
   subtract s1 s2 =
   Ret (if (size (cells s2) <? size (cells s1))%nat
        then difference s1 s2 else difference s2 s1)) ∧
  (is_subset s1 s2 = false → subtract s1 s2 = Raise KeyError) ∧
  (returns (subtract s1 s2) ↔ is_subset s1 s2 = true).
Proof.
  split_and!.
  - apply subtract_nested.
  - apply subtract_not_nested.
  - split.
    + intros [d Hd]. destruct (is_subset s1 s2) eqn:Hs; [done|].
      by rewrite subtract_not_nested in Hd.
    + intros Hs. rewrite subtract_nested by done. by eexists.
Qed.

(** X6: the subtraction is a valid inference: when both sentences hold on a
    board and the subtraction returns, the sentence it returns holds on the
    board as well. *)
Theorem subtract_sound (B : gset Cell) (s1 s2 d : Sentence) :
  holds B s1 → holds B s2 → subtract s1 s2 = Ret d → holds B d.
Proof.
  intros H1 H2 Hd.
  destruct (is_subset s1 s2) eqn:Hs.
  2:{ by rewrite subtract_not_nested in Hd. }
  rewrite subtract_nested in Hd by done. injection Hd as <-.
  apply is_subset_true in Hs.
  destruct (Nat.ltb_spec (size (cells s2)) (size (cells s1))) as [Hlt|Hge].
  - rewrite decide_True in Hs by done. by apply holds_difference.
  - rewrite decide_False in Hs by lia. by apply holds_difference.
Qed.

Lemma subtract_sound_witness :
  holds {[(0, 2)]} (mkSentence {[(0, 2)]} 1).
Proof.
  apply (subtract_sound {[(0, 2)]} (mkSentence {[(0, 1)]} 0)
           (mkSentence {[(0, 1); (0, 2)]} 1)); compute_done.
Defined.

(** X7: the pruning loop, run with its index and [pop] as written, ends
    after at most one test per sentence and one more, and leaves exactly the
    sentences that have a cell, in their order. *)
Theorem prune_while_spec (fuel : nat) (kb : list Sentence) :
  (length kb < fuel)%nat →
  prune_while fuel 0 kb = Ret (filter (λ s, cells s ≠ ∅) kb) ∧
  prune kb = filter (λ s, cells s ≠ ∅) kb.
Proof.
  intros Hf. split; [|apply prune_filter].
  rewrite <- prune_filter. by apply (prune_while_split fuel []).
Qed.

Lemma prune_while_spec_witness :
  prune_while 3 0 [mkSentence ∅ 0; mkSentence {[(0, 1)]} 1] =
  Ret [mkSentence {[(0, 1)]} 1].
Proof.
  destruct (prune_while_spec 3 [mkSentence ∅ 0; mkSentence {[(0, 1)]} 1])
    as [Hw _]; [simpl; lia|].
  rewrite Hw. compute_done.
Defined.

Section more_passes.
Implicit Types (s : Sentence) (c cell : Cell) (kb : list Sentence).
Implicit Types (ai : MinesweeperAI) (b : Minesweeper).

Lemma mentioned_mark_known ai :
  mentioned (knowledge (mark_known ai).1) =
  mentioned (knowledge ai)
    ∖ (all_known_safes (knowledge ai) ∪ all_known_mines (knowledge ai)).
Proof.
  rewrite mark_known_spec. simpl. apply set_eq. intros c.
  rewrite elem_of_difference, !elem_of_mentioned. split.
  - intros (s' & (s & -> & Hs)%list_elem_of_fmap & Hc).
    rewrite cells_foldl_mark_mine, cells_foldl_mark_safe,
      !list_to_set_elements_L in Hc.
    split; [exists s|]; set_solver.
  - intros [(s & Hs & Hc) Hn]. eexists. split.
    + apply list_elem_of_fmap. exists s. split; [done|exact Hs].
    + rewrite cells_foldl_mark_mine, cells_foldl_mark_safe,
        !list_to_set_elements_L. set_solver.
Qed.

(** What a pass does to the fields of the state. *)
Lemma pass_fields fuel ai ai' ch :
  pass fuel ai = Ret (ai', ch) →
  height ai' = height ai ∧ width ai' = width ai ∧
  moves_made ai' = moves_made ai ∧
  safes ai' = all_known_safes (knowledge ai) ∪ safes ai ∧
  mines ai' = all_known_mines (knowledge ai) ∪ mines ai ∧
  mentioned (knowledge ai') =
    mentioned (knowledge ai)
      ∖ (all_known_safes (knowledge ai) ∪ all_known_mines (knowledge ai)).
Proof.
  rewrite pass_unfold. intros Hr.
  apply bind_Ret_inv in Hr as ([kb' ch'] & Hl & Hr).
  simpl in Hr. injection Hr as <- <-. simpl.
  apply subset_loop_mentioned in Hl.
  rewrite Hl, mentioned_prune, mentioned_mark_known.
  rewrite mark_known_spec. simpl. done.
Qed.

Lemma infer_invariant (P : MinesweeperAI → Prop) :
  (∀ fuel ai ai' ch, P ai → pass fuel ai = Ret (ai', ch) → P ai') →
  ∀ fuel ai ai', P ai → infer fuel ai = Ret ai' → P ai'.
Proof.
  intros Hpass fuel. induction fuel as [|fuel IH]; intros ai ai' HP Hr; [done|].
  rewrite infer_unfold in Hr.
  apply bind_Ret_inv in Hr as ([ai1 ch] & Hp & Hr).
  pose proof (Hpass _ _ _ _ HP Hp) as HP1.
  destruct ch; [by eapply IH|]. by injection Hr as <-.
Qed.

Lemma replay_cons fuel ai (o : Cell * Z) (obs : list (Cell * Z)) :
  replay fuel ai (o :: obs) =
  ai' ← add_knowledge fuel ai o.1 o.2; replay fuel ai' obs.
Proof.
  unfold replay. simpl.
  destruct (add_knowledge fuel ai o.1 o.2) as [ai'|e|]; [done|..].
  - induction obs as [|o' obs IH]; [done|]. simpl. exact IH.
  - induction obs as [|o' obs IH]; [done|]. simpl. exact IH.
Qed.

Lemma replay_invariant (P : MinesweeperAI → Prop) :
  (∀ fuel ai cell k ai', P ai → add_knowledge fuel ai cell k = Ret ai' → P ai') →
  ∀ fuel obs ai ai', P ai → replay fuel ai obs = Ret ai' → P ai'.
Proof.
  intros Hstep fuel obs. induction obs as [|o obs IH]; intros ai ai' HP Hr.
  - by injection Hr as <-.
  - rewrite replay_cons in Hr. apply bind_Ret_inv in Hr as (ai1 & Ha & Hr).
    eapply IH; [|exact Hr]. eauto.
Qed.

Lemma observe_mentioned ai cell k c :
  c ∈ mentioned (knowledge (observe ai cell k)) →
  c ≠ cell ∧
  (c ∈ mentioned (knowledge ai) ∨
   (neighbour (height ai) (width ai) cell c ∧ (c ∉ mines ai) ∧ (c ∉ safes ai))).
Proof.
  destruct (observe_fields ai cell k)
    as (_ & _ & _ & _ & _ & _ & new & Hkb & Hin & Hne & _).
  intros (s & Hs & Hc)%elem_of_mentioned. rewrite Hkb in Hs.
  apply elem_of_app in Hs as [(s0 & -> & Hs0)%list_elem_of_fmap
                             | ->%list_elem_of_singleton].
  - rewrite cells_mark_safe in Hc. split; [set_solver|]. left.
    apply elem_of_mentioned. exists s0. set_solver.
  - pose proof (Hne c Hc) as [? _]. apply Hin in Hc. tauto.
Qed.

End more_passes.

Section more_invariants.
Implicit Types (s : Sentence) (c cell : Cell) (kb : list Sentence).
Implicit Types (ai : MinesweeperAI) (b : Minesweeper).

Lemma pass_tidy fuel ai ai' ch : tidy ai → pass fuel ai = Ret (ai', ch) → tidy ai'.
Proof.
  unfold tidy. intros Ht (_ & _ & _ & -> & -> & ->)%pass_fields. set_solver.
Qed.

Lemma observe_tidy ai cell k : tidy ai → tidy (observe ai cell k).
Proof.
  unfold tidy. intros Ht c Hc Hk.
  apply observe_mentioned in Hc as (Hne & Hc).
  destruct (observe_fields ai cell k) as (_ & _ & _ & _ & Hs & Hm & _).
  rewrite Hs, Hm in Hk. set_solver.
Qed.

Lemma add_knowledge_tidy fuel ai cell k ai' :
  tidy ai → add_knowledge fuel ai cell k = Ret ai' → tidy ai'.
Proof.
  intros Ht Hr. eapply (infer_invariant tidy); [|by apply observe_tidy|exact Hr].
  intros ????. apply pass_tidy.
Qed.

Lemma pass_on_board fuel ai ai' ch :
  on_board ai → pass fuel ai = Ret (ai', ch) → on_board ai'.
Proof.
  unfold on_board. intros Hb (-> & -> & -> & -> & -> & ->)%pass_fields c Hc.
  pose proof (all_known_safes_mentioned (knowledge ai)).
  pose proof (all_known_mines_mentioned (knowledge ai)).
  apply Hb. set_solver.
Qed.

Lemma observe_on_board ai cell k : on_board ai → on_board (observe ai cell k).
Proof.
  unfold on_board. intros Hb c Hc.
  destruct (observe_fields ai cell k) as (_ & -> & -> & Hmv & Hs & Hm & _).
  rewrite Hmv, Hs, Hm in Hc.
  apply elem_of_union in Hc as [Hc|Hc].
  - apply Hb. set_solver.
  - apply observe_mentioned in Hc as (_ & [Hc|([_ Hc] & _)]); [|done].
    apply Hb. set_solver.
Qed.

Lemma add_knowledge_on_board fuel ai cell k ai' :
  on_board ai → add_knowledge fuel ai cell k = Ret ai' → on_board ai'.
Proof.
  intros Ht Hr.
  eapply (infer_invariant on_board); [|by apply observe_on_board|exact Hr].
  intros ????. apply pass_on_board.
Qed.

Lemma add_knowledge_dims fuel ai cell k ai' :
  add_knowledge fuel ai cell k = Ret ai' →
  height ai' = height ai ∧ width ai' = width ai.
Proof.
  intros Hr. unfold add_knowledge in Hr.
  destruct (observe_fields ai cell k) as (_ & Hh0 & Hw0 & _).
  pose (P := λ ai1 : MinesweeperAI,
               height ai1 = height (observe ai cell k) ∧
               width ai1 = width (observe ai cell k)).
  assert (P ai') as [Hh Hw].
  { eapply (infer_invariant P); [| |exact Hr]; [|by split].
    intros f a1 a2 ch [Hh Hw] (Hh2 & Hw2 & _)%pass_fields. split; congruence. }
  split; congruence.
Qed.

Lemma make_safe_move_Some (order : list Cell) ai c :
  iterates order (safes ai) →
  make_safe_move order ai = Some c → c ∈ safes ai ∧ c ∉ moves_made ai.
Proof.
  intros [_ Hset] (pre & post & -> & Hc & _)%make_safe_move_first.
  split; [|done]. rewrite <- Hset. set_solver.
Qed.

Lemma infer_saturated fuel ai ai' : infer fuel ai = Ret ai' → saturated (knowledge ai').
Proof.
  intros Hfix%infer_fixed_point.
  destruct (pass_unchanged _ _ _ Hfix) as (Heq & HS & HM & Hl).
  assert (knowledge ai' = prune (knowledge ai')) as Hkb by (by rewrite Heq at 1).
  split.
  - intros s Hs. rewrite Hkb in Hs. apply elem_of_prune in Hs as [Hs Hne].
    assert (Sentence.known_safes s = ∅) as Hks.
    { apply set_eq. intros c. split; [|set_solver]. intros Hc.
      rewrite <- HS. apply elem_of_all_known_safes. eauto. }
    assert (Sentence.known_mines s = ∅) as Hkm.
    { apply set_eq. intros c. split; [|set_solver]. intros Hc.
      rewrite <- HM. apply elem_of_all_known_mines. eauto. }
    unfold Sentence.known_safes in Hks. unfold Sentence.known_mines in Hkm.
    simpl in Hkm.
    assert (size (cells s) ≠ 0%nat) as Hsz.
    { intros Hz. apply Hne. by apply leibniz_equiv, size_empty_iff. }
    destruct (Z.eqb_spec (count s) 0) as [H0|H0]; [done|].
    destruct (Z.eqb_spec (Z.of_nat (size (cells s))) (count s)) as [He|He];
      simpl in Hkm; [done|]. split_and!; [done|done|congruence].
  - rewrite Hkb. by eapply subset_loop_closed.
Qed.

End more_invariants.

(** X8: a call of [add_knowledge] that returns only adds to what is known:
    the board dimensions stay, the cell is added to [moves_made] and to
    [safes], no cell leaves [safes] or [mines], and every cell that became
    known was the cell itself, a cell of a sentence or an in-bounds neighbour
    of the cell. *)
Theorem add_knowledge_grows (fuel : nat) (ai : MinesweeperAI) (cell : Cell)
    (k : Z) (ai' : MinesweeperAI) :
  add_knowledge fuel ai cell k = Ret ai' →
  height ai' = height ai ∧ width ai' = width ai ∧
  moves_made ai' = {[cell]} ∪ moves_made ai ∧
  {[cell]} ∪ safes ai ⊆ safes ai' ∧ mines ai ⊆ mines ai' ∧
  ∀ c, c ∈ safes ai' ∪ mines ai' ∪ mentioned (knowledge ai') →
       c ∈ {[cell]} ∪ safes ai ∪ mines ai ∪ mentioned (knowledge ai) ∨
       neighbour (height ai) (width ai) cell c.
Proof.
  intros Hr. unfold add_knowledge in Hr.
  set (ai0 := observe ai cell k) in *.
  pose (P := λ ai1 : MinesweeperAI,
    height ai1 = height ai0 ∧ width ai1 = width ai0 ∧
    moves_made ai1 = moves_made ai0 ∧
    safes ai0 ⊆ safes ai1 ∧ mines ai0 ⊆ mines ai1 ∧
    safes ai1 ∪ mines ai1 ∪ mentioned (knowledge ai1)
      ⊆ safes ai0 ∪ mines ai0 ∪ mentioned (knowledge ai0)).
  assert (P ai') as (Hh & Hw & Hmv & Hs & Hm & Hall).
  { eapply (infer_invariant P); [| |exact Hr].
    - clear. intros fuel ai1 ai2 ch (Hh & Hw & Hmv & Hs & Hm & Hall)
        (Hh2 & Hw2 & Hmv2 & Hs2 & Hm2 & Hk2)%pass_fields.
      pose proof (all_known_safes_mentioned (knowledge ai1)).
      pose proof (all_known_mines_mentioned (knowledge ai1)).
      unfold P. rewrite Hs2, Hm2, Hk2.
      split_and!; [congruence|congruence|congruence| | |]; set_solver.
    - unfold P. split_and!; done. }
  destruct (observe_fields ai cell k) as (_ & Hh0 & Hw0 & Hmv0 & Hs0 & Hm0 & _).
  fold ai0 in Hh0, Hw0, Hmv0, Hs0, Hm0.
  split_and!; [congruence|congruence|congruence|set_solver|set_solver|].
  intros c Hc. apply Hall in Hc. rewrite Hs0, Hm0 in Hc.
  apply elem_of_union in Hc as [Hc|Hc]; [left; set_solver|].
  apply observe_mentioned in Hc as (_ & [Hc|(Hc & _)]); [left; set_solver|by right].
Qed.

Lemma add_knowledge_grows_witness :
  ∃ ai', add_knowledge 5 (init 1 3) (0, 0) 0 = Ret ai' ∧
         moves_made ai' = {[(0, 0)]} ∪ moves_made (init 1 3).
Proof.
  assert (∃ ai', add_knowledge 5 (init 1 3) (0, 0) 0 = Ret ai') as [ai' Hr].
  { eexists. vm_compute. reflexivity. }
  exists ai'. split; [done|].
  apply (add_knowledge_grows 5 (init 1 3) (0, 0) 0 ai' Hr).
Defined.

(** X9: when [add_knowledge] returns, the knowledge base has nothing left to
    give: no sentence is without cells, no sentence has count 0 or a count
    equal to its number of cells, and for every pair of sentences with
    strictly nested cells the difference is in the knowledge base. *)
Theorem add_knowledge_saturates (fuel : nat) (ai : MinesweeperAI) (cell : Cell)
    (k : Z) (ai' : MinesweeperAI) :
  add_knowledge fuel ai cell k = Ret ai' →
  saturated (knowledge ai') ∧
  ∀ big small, big ∈ knowledge ai' → small ∈ knowledge ai' →
               cells small ⊂ cells big → difference big small ∈ knowledge ai'.
Proof.
  intros Hr%infer_saturated. split; [done|].
  intros big small Hb Hs Hsub. destruct Hr as [_ Hcl].
  apply (Hcl small big); [done..|]. unfold derived. by rewrite decide_True.
Qed.

Lemma add_knowledge_saturates_witness :
  ∃ ai', add_knowledge 20 (init 3 3) (1, 1) 1 = Ret ai' ∧
         saturated (knowledge ai').
Proof.
  assert (∃ ai', add_knowledge 20 (init 3 3) (1, 1) 1 = Ret ai') as [ai' Hr].
  { eexists. vm_compute. reflexivity. }
  exists ai'. split; [done|].
  apply (add_knowledge_saturates 20 (init 3 3) (1, 1) 1 ai' Hr).
Defined.

(** X10: whatever observations a fresh AI is fed, when the calls return no
    sentence mentions a cell that is known to be safe or known to be a mine. *)
Theorem replay_tidy (fuel : nat) (h w : Z) (obs : list (Cell * Z))
    (ai : MinesweeperAI) :
  replay fuel (init h w) obs = Ret ai →
  ∀ s c, s ∈ knowledge ai → c ∈ cells s → (c ∉ safes ai) ∧ c ∉ mines ai.
Proof.
  intros Hr s c Hs Hc.
  assert (tidy ai) as Ht.
  { eapply (replay_invariant tidy); [| |exact Hr].
    - intros ?????. apply add_knowledge_tidy.
    - unfold tidy, mentioned. simpl. set_solver. }
  assert (c ∈ mentioned (knowledge ai)) by (apply elem_of_mentioned; eauto).
  unfold tidy in Ht. set_solver.
Qed.

Lemma replay_tidy_witness :
  ∃ ai, replay 20 (init 3 3) [((1, 1), 1); ((0, 0), 0)] = Ret ai ∧
        ∀ s c, s ∈ knowledge ai → c ∈ cells s → (c ∉ safes ai) ∧ c ∉ mines ai.
Proof.
  assert (∃ ai, replay 20 (init 3 3) [((1, 1), 1); ((0, 0), 0)] = Ret ai)
    as [ai Hr].
  { eexists. vm_compute. reflexivity. }
  exists ai. split; [done|].
  apply (replay_tidy 20 3 3 [((1, 1), 1); ((0, 0), 0)] ai Hr).
Defined.

(** X11: whatever observations a fresh AI is fed, even for cells that are
    not on the board, every known safe cell that has not been played is a
    cell of the board, so the move [make_safe_move] offers afterwards is one,
    in whatever order it goes through the set; every cell flagged as a mine is
    a cell of the board too. *)
Theorem safe_move_on_board (fuel : nat) (h w : Z) (obs : list (Cell * Z))
    (ai : MinesweeperAI) :
  replay fuel (init h w) obs = Ret ai →
  (∀ c, c ∈ safes ai → c ∉ moves_made ai → in_bounds h w c = true) ∧
  (∀ order c, iterates order (safes ai) →
              make_safe_move order ai = Some c → in_bounds h w c = true) ∧
  (∀ c, c ∈ mines ai → in_bounds h w c = true).
Proof.
  intros Hr.
  assert (on_board ai ∧ height ai = h ∧ width ai = w) as (Hb & <- & <-).
  { eapply (replay_invariant (λ ai, on_board ai ∧ height ai = h ∧ width ai = w));
      [| |exact Hr].
    - intros f a cell k a' (Hb & <- & <-) Ha.
      destruct (add_knowledge_dims _ _ _ _ _ Ha) as [? ?].
      split_and!; [|done..]. by eapply add_knowledge_on_board.
    - split_and!; [|done..]. unfold on_board, mentioned. simpl. set_solver. }
  split_and!.
  - intros c Hs Hm. apply Hb. set_solver.
  - intros order c Hit [Hs Hm]%make_safe_move_Some; [|done]. apply Hb. set_solver.
  - intros c Hc. apply Hb. set_solver.
Qed.

Lemma safe_move_on_board_witness :
  ∃ ai, replay 20 (init 1 3) [((0, 0), 0)] = Ret ai ∧
        (0, 1) ∈ safes ai ∧
        ∀ order c, iterates order (safes ai) →
                   make_safe_move order ai = Some c → in_bounds 1 3 c = true.
Proof.
  assert (∃ ai, replay 20 (init 1 3) [((0, 0), 0)] = Ret ai ∧ (0, 1) ∈ safes ai)
    as (ai & Hr & Hs).
  { eexists. split; [vm_compute; reflexivity|compute_done]. }
  exists ai. split_and!; [done..|].
  apply (safe_move_on_board 20 1 3 [((0, 0), 0)] ai Hr).
Defined.

(** X12: in whatever order [make_safe_move] goes through the set of safe
    cells, it returns the first cell of that order that has not been played,
    a known safe cell, and answers [None] exactly when every known safe cell
    has been played; every known safe cell that has not been played is the
    answer for some order. *)
Theorem make_safe_move_spec (ai : MinesweeperAI) (order : list Cell) :
  iterates order (safes ai) →
  (∀ c, make_safe_move order ai = Some c →
        c ∈ safes ai ∧ (c ∉ moves_made ai) ∧
        ∃ pre post, order = pre ++ c :: post ∧
                    ∀ x, x ∈ pre → x ∈ moves_made ai) ∧
  (make_safe_move order ai = None ↔ safes ai ⊆ moves_made ai) ∧
  (∀ c, c ∈ safes ai → c ∉ moves_made ai →
        ∃ order', iterates order' (safes ai) ∧
                  make_safe_move order' ai = Some c).
Proof.
  intros Hit. split_and!.
  - intros c Hc. destruct (make_safe_move_Some _ _ _ Hit Hc) as [Hs Hm].
    apply make_safe_move_first in Hc as (pre & post & Heq & _ & Hpre).
    split_and!; [done|done|]. by exists pre, post.
  - by apply make_safe_move_None.
  - intros c Hs Hm. exists (c :: elements (safes ai ∖ {[c]})). split.
    + split.
      * apply NoDup_cons. split; [|apply NoDup_elements].
        rewrite elem_of_elements. set_solver.
      * rewrite list_to_set_cons, list_to_set_elements_L.
        apply set_eq. intros x. rewrite elem_of_union, elem_of_difference,
          elem_of_singleton.
        destruct (decide (x = c)) as [->|]; naive_solver.
    + simpl. by rewrite bool_decide_eq_true_2.
Qed.

Lemma make_safe_move_spec_witness :
  make_safe_move [(0, 0); (0, 1)]
                 (mkAI 1 3 {[(0, 0)]} ∅ {[(0, 0); (0, 1)]} []) = Some (0, 1) ∧
  (0, 1) ∈ safes (mkAI 1 3 {[(0, 0)]} ∅ {[(0, 0); (0, 1)]} []).
Proof.
  assert (iterates [(0, 0); (0, 1)]
            (safes (mkAI 1 3 {[(0, 0)]} ∅ {[(0, 0); (0, 1)]} []))) as Hit.
  { split; compute_done. }
  destruct (make_safe_move_spec (mkAI 1 3 {[(0, 0)]} ∅ {[(0, 0); (0, 1)]} [])
              [(0, 0); (0, 1)] Hit) as (Hsome & _).
  assert (make_safe_move [(0, 0); (0, 1)]
            (mkAI 1 3 {[(0, 0)]} ∅ {[(0, 0); (0, 1)]} []) = Some (0, 1)) as Hm
    by compute_done.
  split; [done|]. by apply Hsome.
Defined.

(** X13: a game played on observations of one board is sound and goes on:
    from a fresh AI of the board's dimensions, the calls of [add_knowledge]
    for any list of observations of the board all return, the state agrees
    with the board, no known safe cell is a mine, so no move [make_safe_move]
    offers is one, in whatever order it goes through the set, and every cell
    flagged as a mine is a mine. *)
Theorem play_sound (b : Minesweeper) (obs : list (Cell * Z)) :
  Forall (λ o, truthful b o.1 o.2) obs →
  (∃ fuel ai, replay fuel (init (b_height b) (b_width b)) obs = Ret ai) ∧
  (∀ fuel ai, replay fuel (init (b_height b) (b_width b)) obs = Ret ai →
     consistent b ai ∧
     (∀ c, c ∈ safes ai → Minesweeper.is_mine b c = false) ∧
     (∀ order c, iterates order (safes ai) →
                 make_safe_move order ai = Some c →
                 Minesweeper.is_mine b c = false) ∧
     (∀ c, c ∈ mines ai → Minesweeper.is_mine b c = true)).
Proof.
  intros Hobs.
  assert (consistent b (init (b_height b) (b_width b))) as Hc0.
  { unfold consistent. simpl. split_and!; [done|done|set_solver|set_solver|].
    constructor. }
  revert Hc0. generalize (init (b_height b) (b_width b)) as ai0.
  induction Hobs as [|o obs Ho Hobs IH]; intros ai0 Hc0.
  - split; [by exists 0%nat, ai0|].
    intros fuel ai [= <-]. split_and!; [done|..].
    + intros c Hs. apply bool_decide_eq_false.
      destruct Hc0 as (_ & _ & Hd & _). set_solver.
    + intros order c Hit [Hs _]%make_safe_move_Some; [|done].
      apply bool_decide_eq_false.
      destruct Hc0 as (_ & _ & Hd & _). set_solver.
    + intros c Hc. apply bool_decide_eq_true.
      destruct Hc0 as (_ & _ & _ & Hm & _). set_solver.
  - split.
    + destruct (infer_terminates b (observe ai0 o.1 o.2)) as (f1 & ai1 & H1).
      { by apply observe_consistent. }
      assert (consistent b ai1) as Hc1.
      { eapply infer_consistent; [|exact H1]. by apply observe_consistent. }
      destruct (IH ai1 Hc1) as [(f2 & ai2 & H2) _].
      exists (f1 `max` f2)%nat, ai2. rewrite replay_cons.
      unfold add_knowledge. rewrite (infer_mono f1 _ _ _ H1) by lia.
      rewrite bind_Ret.
      clear -H2. revert ai1 H2.
      induction obs as [|o' obs IHo]; intros ai1 H2; [done|].
      rewrite replay_cons in H2 |- *.
      apply bind_Ret_inv in H2 as (ai3 & Ha & H2).
      unfold add_knowledge in *. rewrite (infer_mono f2 _ _ _ Ha) by lia.
      rewrite bind_Ret. by apply IHo.
    + intros fuel ai Hr. rewrite replay_cons in Hr.
      apply bind_Ret_inv in Hr as (ai1 & Ha & Hr).
      assert (consistent b ai1) as Hc1
        by (eapply add_knowledge_consistent; eauto).
      destruct (IH ai1 Hc1) as [_ Hall]. by eapply Hall.
Qed.

Lemma play_sound_witness :
  ∃ fuel ai,
    replay fuel (init 1 3) [((0, 0), 0); ((0, 1), 1)] = Ret ai ∧
    consistent board_1x3 ai.
Proof.
  assert (Forall (λ o, truthful board_1x3 o.1 o.2) [((0, 0), 0); ((0, 1), 1)])
    as Hobs.
  { repeat constructor; vm_compute; reflexivity. }
  destruct (play_sound board_1x3 [((0, 0), 0); ((0, 1), 1)] Hobs)
    as [(fuel & ai & Hr) Hall].
  exists fuel, ai. split; [exact Hr|]. by apply (Hall fuel ai).
Defined.

Section more_random.
Implicit Types (ai : MinesweeperAI) (rng : nat → nat).

Lemma randint_zero (n : Z) (r : nat) :
  0 < n → randint 0 (n - 1) r = Ret (Z.of_nat r mod n).
Proof.
  intros Hn. unfold randint. destruct (Z.ltb_spec (n - 1) 0); [lia|].
  f_equal. rewrite Z.add_0_l. f_equal. lia.
Qed.

Lemma randint_empty (n : Z) (r : nat) :
  n ≤ 0 → randint 0 (n - 1) r = Raise ValueError.
Proof.
  intros Hn. unfold randint. destruct (Z.ltb_spec (n - 1) 0); [done|lia].
Qed.

Lemma make_random_move_round fuel rng m ai :
  0 < height ai → 0 < width ai →
  make_random_move (S fuel) rng (2 * m) ai =
  if decide (eligible ai (draw ai rng m)) then Ret (draw ai rng m)
  else make_random_move fuel rng (2 * S m) ai.
Proof.
  intros Hh Hw. unfold eligible, draw.
  replace (2 * S m)%nat with (S (S (2 * m))) by lia.
  generalize (2 * m)%nat as n. intros n. simpl make_random_move.
  rewrite !randint_zero by done. rewrite !bind_Ret.
  set (cords := (Z.of_nat (rng n) mod height ai,
                 Z.of_nat (rng (S n)) mod width ai)).
  destruct (decide (cords ∈ mines ai)) as [Hm|Hm].
  { rewrite (bool_decide_eq_true_2 _ Hm), decide_False by tauto. done. }
  rewrite (bool_decide_eq_false_2 _ Hm).
  destruct (decide (cords ∈ moves_made ai)) as [Hp|Hp].
  { rewrite (bool_decide_eq_true_2 _ Hp), decide_False by tauto. done. }
  rewrite (bool_decide_eq_false_2 _ Hp), decide_True by tauto. done.
Qed.

Lemma make_random_move_from fuel rng m k ai :
  0 < height ai → 0 < width ai →
  eligible ai (draw ai rng (m + k)) →
  (∀ j, (j < k)%nat → ¬ eligible ai (draw ai rng (m + j))) →
  (k < fuel)%nat →
  make_random_move fuel rng (2 * m) ai = Ret (draw ai rng (m + k)).
Proof.
  intros Hh Hw. revert m fuel.
  induction k as [|k IH]; intros m fuel He Hn Hf;
    (destruct fuel as [|fuel]; [lia|]); rewrite make_random_move_round by done.
  - rewrite Nat.add_0_r in He. rewrite decide_True by done.
    by rewrite Nat.add_0_r.
  - rewrite decide_False.
    + replace (m + S k)%nat with (S m + k)%nat in * by lia.
      apply IH; [done| |lia].
      intros j Hj. replace (S m + j)%nat with (m + S j)%nat by lia.
      apply Hn. lia.
    + specialize (Hn 0%nat). rewrite Nat.add_0_r in Hn. apply Hn. lia.
Qed.

End more_random.

(** X14: a cell that [make_random_move] returns is a cell of the board that
    is neither a known mine nor a move already made. *)
Theorem make_random_move_sound (fuel : nat) (rng : nat → nat) (n : nat)
    (ai : MinesweeperAI) (cell : Cell) :
  make_random_move fuel rng n ai = Ret cell →
  in_bounds (height ai) (width ai) cell = true ∧
  (cell ∉ mines ai) ∧ cell ∉ moves_made ai.
Proof. apply make_random_move_eligible. Qed.

Lemma make_random_move_sound_witness :
  ∃ cell, make_random_move 5 (λ _, 1%nat) 0 (init 2 2) = Ret cell ∧
          in_bounds 2 2 cell = true.
Proof.
  assert (∃ cell, make_random_move 5 (λ _, 1%nat) 0 (init 2 2) = Ret cell)
    as [cell Hr].
  { eexists. vm_compute. reflexivity. }
  exists cell. split; [done|].
  apply (make_random_move_sound 5 (λ _, 1%nat) 0 (init 2 2) cell Hr).
Defined.

(** X15: on an AI whose height or width is not positive [make_random_move]
    raises [ValueError] in its first round, the range of [random.randint]
    being empty; it raises nothing else, and nothing on a board with positive
    dimensions. *)
Theorem make_random_move_raises (fuel : nat) (rng : nat → nat) (n : nat)
    (ai : MinesweeperAI) :
  (height ai ≤ 0 ∨ width ai ≤ 0 →
   make_random_move (S fuel) rng n ai = Raise ValueError) ∧
  (∀ e, make_random_move fuel rng n ai = Raise e →
        e = ValueError ∧ (height ai ≤ 0 ∨ width ai ≤ 0)).
Proof.
  split.
  - intros Hd. simpl.
    destruct (Z_lt_le_dec 0 (height ai)) as [Hh|Hh].
    + destruct Hd as [Hd|Hd]; [lia|].
      rewrite (randint_zero (height ai)) by done. rewrite bind_Ret.
      rewrite (randint_empty (width ai)) by done. done.
    + rewrite (randint_empty (height ai)) by done. done.
  - revert n. induction fuel as [|fuel IH]; intros n e; [done|]. simpl.
    destruct (Z_lt_le_dec 0 (height ai)) as [Hh|Hh].
    2:{ rewrite (randint_empty (height ai)) by done. intros [= <-]. auto. }
    rewrite (randint_zero (height ai)) by done. rewrite bind_Ret.
    destruct (Z_lt_le_dec 0 (width ai)) as [Hw|Hw].
    2:{ rewrite (randint_empty (width ai)) by done. intros [= <-]. auto. }
    rewrite (randint_zero (width ai)) by done. rewrite bind_Ret.
    destruct (negb _); [done|]. apply IH.
Qed.

(** X16: on a board with positive dimensions [make_random_move] returns the
    first cell drawn that is neither a known mine nor played, as soon as it
    is allowed that many rounds. *)
Theorem make_random_move_first (fuel : nat) (rng : nat → nat) (k : nat)
    (ai : MinesweeperAI) :
  0 < height ai → 0 < width ai →
  eligible ai (draw ai rng k) →
  (∀ j, (j < k)%nat → ¬ eligible ai (draw ai rng j)) →
  (k < fuel)%nat →
  make_random_move fuel rng 0 ai = Ret (draw ai rng k).
Proof.
  intros Hh Hw He Hn Hf.
  by apply (make_random_move_from fuel rng 0 k ai).
Qed.

Lemma make_random_move_first_witness :
  make_random_move 3 (λ n, if decide (n = 1 ∨ n = 2)%nat then 1 else 0)%nat 0
                   (mkAI 2 2 {[(0, 1)]} ∅ {[(0, 1)]} [])
  = Ret (1, 0).
Proof.
  rewrite (make_random_move_first 3
             (λ n, if decide (n = 1 ∨ n = 2)%nat then 1 else 0)%nat 1
             (mkAI 2 2 {[(0, 1)]} ∅ {[(0, 1)]} [])).
  - vm_compute. reflexivity.
  - simpl. lia.
  - simpl. lia.
  - compute_done.
  - intros j Hj. assert (j = 0%nat) as -> by lia. compute_done.
  - lia.
Defined.

(** X17: reports that contradict each other hang the call: when, after the
    first marking and pruning, the knowledge base holds two sentences on the
    same cells with different counts and a sentence on some, not all and not
    none, of these cells, [add_knowledge] does not return and raises nothing,
    however long it runs. *)
Theorem conflicting_reports_hang (ai : MinesweeperAI) (cell : Cell) (k : Z)
    (X Y : gset Cell) (a b c : Z) (fuel : nat) :
  let kb := prune (knowledge (mark_known (observe ai cell k)).1) in
  X ⊂ Y → X ≠ ∅ → a ≠ b →
  mkSentence Y a ∈ kb → mkSentence Y b ∈ kb → mkSentence X c ∈ kb →
  add_knowledge fuel ai cell k = OutOfFuel.
Proof.
  intros kb HXY HX Hab Ha Hb Hc. unfold add_knowledge.
  destruct fuel as [|fuel]; [done|].
  rewrite infer_unfold, pass_unfold. fold kb.
  by rewrite (subset_loop_conflict fuel kb _ X Y a b c).
Qed.

Lemma conflicting_reports_hang_witness :
  add_knowledge 1000 told_twice (0, 0) 1 = OutOfFuel.
Proof.
  apply (conflicting_reports_hang told_twice (0, 0) 1 {[(1, 0); (1, 1)]}
           {[(0, 2); (1, 0); (1, 1); (1, 2)]} 1 2 1 1000); compute_done.
Defined.

Section grid.
Implicit Types (board : list (list bool)) (placed : gset Cell) (g : Board).
Implicit Types (i j h w : Z).

Lemma py_index_in (len : nat) i :
  0 ≤ i < Z.of_nat len → py_index len i = Some (Z.to_nat i).
Proof.
  intros Hi. unfold py_index.
  destruct (Z.leb_spec 0 i); [|lia]. destruct (Z.ltb_spec i (Z.of_nat len)); [|lia].
  done.
Qed.

Lemma py_index_wrap (len : nat) i :
  - Z.of_nat len ≤ i < 0 → py_index len i = py_index len (i + Z.of_nat len).
Proof.
  intros Hi. rewrite (py_index_in len (i + Z.of_nat len)) by lia.
  unfold py_index.
  destruct (Z.leb_spec 0 i); [lia|]. simpl.
  destruct (Z.leb_spec (- Z.of_nat len) i); [|lia].
  destruct (Z.ltb_spec i 0); [|lia]. simpl. do 2 f_equal. lia.
Qed.

Lemma py_index_out (len : nat) i :
  i < - Z.of_nat len ∨ Z.of_nat len ≤ i → py_index len i = None.
Proof.
  intros Hi. unfold py_index.
  destruct (Z.leb_spec 0 i), (Z.ltb_spec i (Z.of_nat len)),
    (Z.leb_spec (- Z.of_nat len) i), (Z.ltb_spec i 0); simpl; try done; lia.
Qed.

Lemma in_bounds_iff h w i j :
  in_bounds h w (i, j) = true ↔ 0 ≤ i < h ∧ 0 ≤ j < w.
Proof.
  unfold in_bounds. simpl. rewrite !andb_true_iff, !Z.leb_le, !Z.ltb_lt. lia.
Qed.

Lemma grid_matches_row h w placed board i :
  grid_matches h w placed board → 0 ≤ i < h →
  ∃ row, board !! Z.to_nat i = Some row ∧ length row = Z.to_nat w.
Proof.
  intros (Hlen & Hrows & _) Hi.
  destruct (lookup_lt_is_Some_2 board (Z.to_nat i)) as [row Hrow]; [lia|].
  exists row. split; [done|].
  rewrite Forall_forall in Hrows. apply Hrows.
  by eapply list_elem_of_lookup_2.
Qed.

Lemma grid_matches_get h w placed board i j :
  grid_matches h w placed board → in_bounds h w (i, j) = true →
  board_get board i j = Some (bool_decide ((i, j) ∈ placed)).
Proof.
  intros Hg [Hi Hj]%in_bounds_iff.
  destruct (grid_matches_row _ _ _ _ i Hg Hi) as (row & Hrow & Hlen).
  destruct Hg as (Hblen & _ & _ & Hval).
  unfold board_get.
  rewrite py_index_in by lia. simpl. rewrite Hrow. simpl.
  rewrite py_index_in by lia. simpl.
  destruct (lookup_lt_is_Some_2 row (Z.to_nat j)) as [v Hv]; [lia|].
  rewrite Hv. f_equal.
  rewrite (Hval _ _ _ _ Hrow Hv). by rewrite !Z2Nat.id by lia.
Qed.

Lemma grid_matches_set h w placed board i j :
  grid_matches h w placed board → in_bounds h w (i, j) = true →
  ∃ board', board_set board i j true = Some board' ∧
            grid_matches h w ({[(i, j)]} ∪ placed) board'.
Proof.
  intros Hg Hb. pose proof Hb as [Hi Hj]%in_bounds_iff.
  destruct (grid_matches_row _ _ _ _ i Hg Hi) as (row & Hrow & Hlen).
  destruct Hg as (Hblen & Hrows & Hin & Hval).
  unfold board_set.
  rewrite py_index_in by lia. simpl. rewrite Hrow. simpl.
  rewrite py_index_in by lia. simpl.
  eexists. split; [done|]. split_and!.
  - by rewrite length_insert.
  - rewrite Forall_forall in Hrows |- *. intros r' Hr'.
    apply list_elem_of_lookup in Hr' as [i' Hi'].
    destruct (decide (Z.to_nat i = i')) as [<-|Hne].
    + rewrite list_lookup_insert_eq in Hi' by lia. injection Hi' as <-.
      by rewrite length_insert.
    + rewrite list_lookup_insert_ne in Hi' by done.
      apply Hrows. by eapply list_elem_of_lookup_2.
  - intros c [->%elem_of_singleton|Hc]%elem_of_union; auto.
  - intros i' j' r' v Hr' Hv.
    destruct (decide (Z.to_nat i = i')) as [<-|Hne].
    + rewrite list_lookup_insert_eq in Hr' by lia. injection Hr' as <-.
      destruct (decide (Z.to_nat j = j')) as [<-|Hnej].
      * rewrite list_lookup_insert_eq in Hv by lia. injection Hv as <-.
        symmetry. apply bool_decide_eq_true_2.
        rewrite !Z2Nat.id by lia. set_solver.
      * rewrite list_lookup_insert_ne in Hv by done.
        rewrite (Hval _ _ _ _ Hrow Hv). apply bool_decide_ext.
        rewrite elem_of_union, elem_of_singleton. split; [auto|].
        intros [[= Hi' Hj']|?]; [|done]. lia.
    + rewrite list_lookup_insert_ne in Hr' by done.
      rewrite (Hval _ _ _ _ Hr' Hv). apply bool_decide_ext.
      rewrite elem_of_union, elem_of_singleton. split; [auto|].
      intros [[= Hi' Hj']|?]; [|done]. lia.
Qed.

Lemma grid_matches_empty h w :
  grid_matches h w ∅ (replicate (Z.to_nat h) (replicate (Z.to_nat w) false)).
Proof.
  split_and!.
  - apply length_replicate.
  - apply Forall_replicate, length_replicate.
  - set_solver.
  - intros i j row v [-> _]%lookup_replicate [-> _]%lookup_replicate.
    symmetry. apply bool_decide_eq_false_2. set_solver.
Qed.

Lemma randrange_inv (n : Z) (r : nat) v : randrange n r = Ret v → 0 ≤ v < n.
Proof.
  unfold randrange. destruct (Z.leb_spec n 0); [done|]. intros [= <-].
  apply Z.mod_pos_bound. lia.
Qed.

Lemma randrange_pos (n : Z) (r : nat) :
  0 < n → randrange n r = Ret (Z.of_nat r mod n).
Proof. intros Hn. unfold randrange. destruct (Z.leb_spec n 0); [lia|done]. Qed.

Lemma place_matches fuel rng n h w m placed board r :
  grid_matches h w placed board →
  Board.place fuel rng n h w m placed board = Ret r →
  ∃ placed' board',
    r = Some (placed', board') ∧ grid_matches h w placed' board' ∧
    Z.of_nat (size placed') = m ∧ placed ⊆ placed'.
Proof.
  revert n placed board.
  induction fuel as [|fuel IH]; intros n placed board Hg Hr; [done|].
  simpl in Hr. destruct (Z.eqb_spec (Z.of_nat (size placed)) m) as [Hm|Hm].
  { injection Hr as <-. exists placed, board. done. }
  apply bind_Ret_inv in Hr as (i & Hi & Hr).
  apply bind_Ret_inv in Hr as (j & Hj & Hr).
  apply randrange_inv in Hi, Hj.
  assert (in_bounds h w (i, j) = true) as Hb by (apply in_bounds_iff; lia).
  rewrite (grid_matches_get _ _ _ _ _ _ Hg Hb) in Hr.
  case_bool_decide as Hin.
  - by apply IH in Hr.
  - destruct (grid_matches_set _ _ _ _ _ _ Hg Hb) as (board' & Hset & Hg').
    rewrite Hset in Hr. apply IH in Hr as (p' & b' & ? & ? & ? & ?); [|done].
    exists p', b'. split_and!; [done..|]. set_solver.
Qed.

End grid.

Section grid_size.
Implicit Types (board : list (list bool)) (placed : gset Cell) (g : Board).
Implicit Types (i j h w : Z).

Lemma elem_of_range lo hi x : x ∈ range lo hi ↔ lo ≤ x < hi.
Proof.
  unfold range. rewrite list_elem_of_fmap. split.
  - intros (k & -> & Hk%elem_of_seq). lia.
  - intros Hx. exists (Z.to_nat (x - lo)). split; [lia|].
    apply elem_of_seq. lia.
Qed.

Lemma length_range lo hi : length (range lo hi) = Z.to_nat (hi - lo).
Proof. unfold range. by rewrite length_fmap, length_seq. Qed.

Lemma elem_of_board_cells h w c : c ∈ board_cells h w ↔ in_bounds h w c = true.
Proof.
  destruct c as [i j]. rewrite in_bounds_iff. unfold board_cells.
  rewrite list_elem_of_bind. split.
  - intros (i' & (j' & [= -> ->]%list_elem_of_singleton & Hj%elem_of_range)
               %list_elem_of_bind & Hi%elem_of_range). lia.
  - intros [Hi Hj]. exists i. split; [|by apply elem_of_range].
    apply list_elem_of_bind. exists j. split; [by left|by apply elem_of_range].
Qed.

Lemma length_bind_const {A B} (f : A → list B) (l : list A) (k : nat) :
  (∀ x, length (f x) = k) → length (l ≫= f) = (length l * k)%nat.
Proof.
  intros Hf. induction l as [|x l IH]; [done|].
  rewrite bind_cons, length_app, IH, Hf. done.
Qed.

Lemma length_board_cells h w :
  length (board_cells h w) = (Z.to_nat h * Z.to_nat w)%nat.
Proof.
  unfold board_cells. rewrite (length_bind_const _ _ (Z.to_nat w)).
  - rewrite length_range. f_equal. lia.
  - intros i. rewrite (length_bind_const _ _ 1%nat) by done.
    rewrite length_range. lia.
Qed.

Lemma size_list_to_set_le (l : list Cell) :
  (size (list_to_set l : gset Cell) ≤ length l)%nat.
Proof.
  induction l as [|c l IH].
  - rewrite list_to_set_nil, size_empty. done.
  - rewrite list_to_set_cons, size_union_alt, size_singleton. simpl.
    assert (size (list_to_set l ∖ {[c]} : gset Cell) ≤ size (list_to_set l : gset Cell))%nat
      by (apply subseteq_size; set_solver).
    lia.
Qed.

(** A set of board cells has at most [height * width] elements. *)
Lemma size_on_board h w placed :
  (∀ c, c ∈ placed → in_bounds h w c = true) →
  (size placed ≤ Z.to_nat h * Z.to_nat w)%nat.
Proof.
  intros Hin. rewrite <- length_board_cells.
  etrans; [|apply size_list_to_set_le].
  apply subseteq_size. intros c Hc.
  apply elem_of_list_to_set, elem_of_board_cells. auto.
Qed.

Lemma place_hangs fuel rng n h w m placed board :
  0 < h → 0 < w → m < 0 ∨ h * w < m →
  grid_matches h w placed board →
  Board.place fuel rng n h w m placed board = OutOfFuel.
Proof.
  intros Hh Hw Hm. revert n placed board.
  induction fuel as [|fuel IH]; intros n placed board Hg; [done|]. simpl.
  assert (Z.of_nat (size placed) ≠ m) as Hne.
  { destruct Hg as (_ & _ & Hin & _). apply size_on_board in Hin. nia. }
  destruct (Z.eqb_spec (Z.of_nat (size placed)) m); [done|].
  rewrite !randrange_pos by done. rewrite !bind_Ret.
  set (i := Z.of_nat (rng n) mod h). set (j := Z.of_nat (rng (S n)) mod w).
  assert (in_bounds h w (i, j) = true) as Hb.
  { apply in_bounds_iff. unfold i, j.
    pose proof (Z.mod_pos_bound (Z.of_nat (rng n)) h).
    pose proof (Z.mod_pos_bound (Z.of_nat (rng (S n))) w). lia. }
  rewrite (grid_matches_get _ _ _ _ _ _ Hg Hb).
  case_bool_decide; [by apply IH|].
  destruct (grid_matches_set _ _ _ _ _ _ Hg Hb) as (board' & -> & Hg').
  by apply IH.
Qed.

Lemma nearby_mines_grid_fold g (l : list Cell) (cell : Cell) (k : Z) :
  well_formed g →
  foldl (λ acc n,
           count ← acc;
           if decide (n = cell) then Some count
           else if in_bounds (bd_height g) (bd_width g) n
                then v ← board_get (bd_board g) n.1 n.2;
                     Some (if v : bool then count + 1 else count)
                else Some count)
        (Some k) l =
  Some (foldl (λ count n,
                 if decide (n = cell) then count
                 else if in_bounds (b_height (board_of g)) (b_width (board_of g)) n
                      then if Minesweeper.is_mine (board_of g) n then count + 1
                           else count
                      else count) k l).
Proof.
  intros Hg. revert k. induction l as [|[i j] l IH]; intros k; simpl; [done|].
  rewrite <- IH. f_equal.
  destruct (decide ((i, j) = cell)); [done|].
  destruct (in_bounds (bd_height g) (bd_width g) (i, j)) eqn:Hb; [|done].
  rewrite (grid_matches_get _ _ _ _ _ _ Hg Hb). done.
Qed.

Lemma nearby_mines_le_8 b cell : 0 ≤ Minesweeper.nearby_mines b cell ≤ 8.
Proof.
  rewrite nearby_mines_spec. split; [lia|].
  set (nb := neighbour (b_height b) (b_width b) cell).
  assert (filter nb (b_mines b) ⊆ list_to_set (block cell) ∖ {[cell]}) as Hsub.
  { intros n [Hn _]%elem_of_filter.
    apply neighbour_block in Hn as (? & ? & _).
    apply elem_of_difference. rewrite elem_of_list_to_set. set_solver. }
  apply subseteq_size in Hsub.
  assert (size (list_to_set (block cell) ∖ {[cell]} : gset Cell) = 8%nat) as Hsz.
  { rewrite size_difference.
    - rewrite size_list_to_set by apply NoDup_block.
      rewrite size_singleton. destruct cell as [r c]. by rewrite block_unfold.
    - intros x ->%elem_of_singleton. apply elem_of_list_to_set, elem_of_block.
      pose proof (chebyshev_zero cell cell) as [_ Hz]. rewrite Hz by done. lia. }
  lia.
Qed.

End grid_size.

(** ** The board object *)

(** X18: [nearby_mines] is the number of mines among the in-bounds cells at
    Chebyshev distance 1 from the cell, the cell itself left out, and so a
    number from 0 to 8. *)
Theorem nearby_mines_bounds (b : Minesweeper) (cell : Cell) :
  Minesweeper.nearby_mines b cell =
    Z.of_nat (size (filter (neighbour (b_height b) (b_width b) cell) (b_mines b))) ∧
  0 ≤ Minesweeper.nearby_mines b cell ≤ 8.
Proof. split; [apply nearby_mines_spec|apply nearby_mines_le_8]. Qed.

(** X19: when the constructor returns, no board access has failed, the
    object has the dimensions asked for and exactly the number of mines asked
    for, all on the board; the grid has [height] rows of [width] cells and is
    [True] exactly at the mines; no mine is found yet, so the game counts as
    won only for a board without mines. *)
Theorem new_board_spec (fuel : nat) (rng : nat → nat) (h w m : Z)
    (r : option Board) :
  Board.new fuel rng h w m = Ret r →
  ∃ g, r = Some g ∧
       bd_height g = h ∧ bd_width g = w ∧
       Z.of_nat (size (bd_mines g)) = m ∧
       well_formed g ∧
       bd_mines_found g = ∅ ∧
       Board.won g = (m =? 0).
Proof.
  unfold Board.new. intros Hr.
  destruct (Board.place _ _ _ _ _ _ _ _) as [[[placed board]|]|e|] eqn:Hp;
    try done.
  - injection Hr as <-.
    apply place_matches in Hp as (p' & b' & [= <- <-] & Hg & Hm & _);
      [|apply grid_matches_empty].
    eexists. split; [done|]. simpl. split_and!; [done..|].
    unfold Board.won. simpl. rewrite <- Hm.
    destruct (Z.eqb_spec (Z.of_nat (size placed)) 0) as [Hz|Hz].
    + apply bool_decide_eq_true_2. symmetry.
      apply leibniz_equiv, size_empty_iff. lia.
    + apply bool_decide_eq_false_2. intros <-. by rewrite size_empty in Hz.
  - apply place_matches in Hp as (p' & b' & ? & _); [done|].
    apply grid_matches_empty.
Qed.

Lemma new_board_spec_witness :
  ∃ g, Board.new 20 (λ n, (n * 7 + 1)%nat) 2 3 2 = Ret (Some g) ∧
       Z.of_nat (size (bd_mines g)) = 2 ∧ well_formed g.
Proof.
  assert (∃ r, Board.new 20 (λ n, (n * 7 + 1)%nat) 2 3 2 = Ret r) as [r Hr].
  { eexists. vm_compute. reflexivity. }
  destruct (new_board_spec 20 (λ n, (n * 7 + 1)%nat) 2 3 2 r Hr)
    as (g & -> & _ & _ & Hm & Hg & _).
  exists g. done.
Defined.

(** X20: asked for more mines than the board has cells, or for a negative
    number of mines, the constructor never returns on a board with positive
    dimensions: the loop keeps drawing cells. *)
Theorem new_never_ends (fuel : nat) (rng : nat → nat) (h w m : Z) :
  0 < h → 0 < w → m < 0 ∨ h * w < m →
  Board.new fuel rng h w m = OutOfFuel.
Proof.
  intros Hh Hw Hm. unfold Board.new.
  rewrite place_hangs; [done..|]. apply grid_matches_empty.
Qed.

Lemma new_never_ends_witness :
  Board.new 1000 (λ n, n) 2 2 5 = OutOfFuel.
Proof. apply (new_never_ends 1000 (λ n, n) 2 2 5); lia. Defined.

Lemma place_S (fuel : nat) (rng : nat → nat) (n : nat) (h w m : Z)
    (placed : gset Cell) (board : list (list bool)) :
  Board.place (S fuel) rng n h w m placed board =
  if Z.of_nat (size placed) =? m then Ret (Some (placed, board))
  else
    i ← randrange h (rng n);
    j ← randrange w (rng (S n));
    match board_get board i j with
    | None => Ret None
    | Some true => Board.place fuel rng (S (S n)) h w m placed board
    | Some false =>
        match board_set board i j true with
        | None => Ret None
        | Some board' =>
            Board.place fuel rng (S (S n)) h w m ({[(i, j)]} ∪ placed) board'
        end
    end.
Proof. done. Qed.

(** X21: the edge cases of the constructor: asked for no mine it returns an
    all-[False] grid without drawing anything, also for a height or width
    that is not positive; asked for mines on a board whose height or width is
    not positive it raises [ValueError]. *)
Theorem new_edge_cases (fuel : nat) (rng : nat → nat) (h w m : Z) :
  Board.new (S fuel) rng h w 0 =
    Ret (Some (mkGrid h w ∅ (replicate (Z.to_nat h) (replicate (Z.to_nat w) false)) ∅)) ∧
  (m ≠ 0 → h ≤ 0 ∨ w ≤ 0 → Board.new (S fuel) rng h w m = Raise ValueError).
Proof.
  split.
  - unfold Board.new. rewrite place_S, size_empty. done.
  - intros Hm Hd. unfold Board.new. rewrite place_S, size_empty.
    destruct (Z.eqb_spec (Z.of_nat 0) m); [lia|].
    assert (∀ n r, n ≤ 0 → randrange n r = Raise ValueError) as Hempty.
    { intros n' r Hn. unfold randrange. by destruct (Z.leb_spec n' 0); [|lia]. }
    destruct (Z_lt_le_dec 0 h) as [Hh|Hh].
    + rewrite (randrange_pos h) by done. rewrite bind_Ret.
      rewrite (Hempty w) by lia. done.
    + rewrite (Hempty h) by done. done.
Qed.

(** X22: [is_mine] reads the grid with Python's indexing.  On a well-formed
    object it answers for a cell of the board whether it is in the set of
    mines; a negative row or column down to minus the height or width reads
    the cell that many places from the end; a row beyond that raises
    [IndexError]. *)
Theorem is_mine_indexing (g : Board) (i j : Z) :
  well_formed g →
  (in_bounds (bd_height g) (bd_width g) (i, j) = true →
   Board.is_mine g (i, j) = Some (Minesweeper.is_mine (board_of g) (i, j))) ∧
  (- bd_height g ≤ i < 0 →
   Board.is_mine g (i, j) = Board.is_mine g (i + bd_height g, j)) ∧
  (- bd_width g ≤ j < 0 → 0 ≤ i < bd_height g →
   Board.is_mine g (i, j) = Board.is_mine g (i, j + bd_width g)) ∧
  (0 ≤ bd_height g → i < - bd_height g ∨ bd_height g ≤ i →
   Board.is_mine g (i, j) = None).
Proof.
  intros Hg. pose proof Hg as (Hlen & Hrows & _). split_and!.
  - intros Hb. unfold Board.is_mine. simpl.
    by rewrite (grid_matches_get _ _ _ _ _ _ Hg Hb).
  - intros Hi. unfold Board.is_mine, board_get. simpl.
    rewrite py_index_wrap by lia. do 2 f_equal. lia.
  - intros Hj Hi. unfold Board.is_mine, board_get. simpl.
    destruct (grid_matches_row _ _ _ _ i Hg Hi) as (row & Hrow & Hrl).
    rewrite py_index_in by lia. simpl. rewrite Hrow. simpl.
    rewrite py_index_wrap by lia. do 2 f_equal. lia.
  - intros Hh Hi. unfold Board.is_mine, board_get. simpl.
    by rewrite py_index_out by lia.
Qed.

Lemma is_mine_indexing_witness :
  Board.is_mine (mkGrid 1 2 {[(0, 1)]} [[false; true]] ∅) (-1, -1) =
  Board.is_mine (mkGrid 1 2 {[(0, 1)]} [[false; true]] ∅) (0, -1).
Proof.
  assert (well_formed (mkGrid 1 2 {[(0, 1)]} [[false; true]] ∅)) as Hg.
  { split_and!; simpl.
    - done.
    - repeat constructor.
    - intros c ->%elem_of_singleton. done.
    - intros [|[|i]] j row v Hr Hv; simplify_eq/=.
      destruct j as [|[|j]]; simplify_eq/=; compute_done. }
  destruct (is_mine_indexing (mkGrid 1 2 {[(0, 1)]} [[false; true]] ∅) (-1) (-1) Hg)
    as (_ & Hw & _).
  apply Hw. simpl. lia.
Defined.

(** X23: on a well-formed object [nearby_mines], which reads the grid, never
    fails and gives the number of mines among the neighbours of the cell in
    the set of mines, a number from 0 to 8. *)
Theorem nearby_mines_grid (g : Board) (cell : Cell) :
  well_formed g →
  Board.nearby_mines g cell = Some (Minesweeper.nearby_mines (board_of g) cell) ∧
  Board.nearby_mines g cell =
    Some (Z.of_nat (size (filter (neighbour (bd_height g) (bd_width g) cell)
                                 (bd_mines g)))).
Proof.
  intros Hg.
  assert (Board.nearby_mines g cell
          = Some (Minesweeper.nearby_mines (board_of g) cell)) as Heq.
  { unfold Board.nearby_mines, Minesweeper.nearby_mines.
    by rewrite nearby_mines_grid_fold. }
  split; [done|]. rewrite Heq. f_equal. apply nearby_mines_spec.
Qed.

Lemma nearby_mines_grid_witness :
  Board.nearby_mines (mkGrid 1 2 {[(0, 1)]} [[false; true]] ∅) (0, 0) = Some 1.
Proof.
  assert (well_formed (mkGrid 1 2 {[(0, 1)]} [[false; true]] ∅)) as Hg.
  { split_and!; simpl.
    - done.
    - repeat constructor.
    - intros c ->%elem_of_singleton. done.
    - intros [|[|i]] j row v Hr Hv; simplify_eq/=.
      destruct j as [|[|j]]; simplify_eq/=; compute_done. }
  destruct (nearby_mines_grid (mkGrid 1 2 {[(0, 1)]} [[false; true]] ∅) (0, 0) Hg)
    as [Hn _].
  rewrite Hn. compute_done.
Defined.
